(** * Register.jsx: the registration form controller

    A shallow embedding of [src/routes/register/Register.jsx]: the
    component state, the two event handlers [handleChange] and
    [handleSubmit], and the part of the JavaScript runtime they rely on
    (strings as sequences of UTF-16 code units, regular-expression
    literals, truthiness, property access, the [<] comparison). *)

From Stdlib Require Import String Ascii NArith QArith.
From stdpp Require Import gmap list.

Set Warnings "-register-all".
Local Open Scope nat_scope.

(** ** JavaScript strings *)

(** A JavaScript string is a sequence of 16-bit code units; [length]
    counts code units and a regular expression without the [u] flag works
    on code units. *)
Abbreviation code_unit := N (only parsing).
Abbreviation jsstring := (list N) (only parsing).

(** A source literal made of ASCII characters, as a JavaScript string. *)
Definition js (s : string) : jsstring :=
  map N_of_ascii (list_ascii_of_string s).
Arguments js s%_string.

(** A character literal. *)
Definition chr (s : string) : code_unit := hd 0%N (js s).
Arguments chr s%_string.

(** ** Regular expressions *)

Module RegExp.

(** Members of a character class. *)
Inductive atom : Type :=
| AChar (c : code_unit)            (* a literal character *)
| ARange (lo hi : code_unit)       (* lo-hi *)
| ADigit                           (* \d *)
| ASpace.                          (* \s *)

Inductive cclass : Type :=
| Dot                              (* . *)
| One (a : atom)                   (* a literal or an escape on its own *)
| Class (negated : bool) (items : list atom).   (* [...] and [^...] *)

(** The patterns of this component quantify character classes only. *)
Inductive regex : Type :=
| Empty
| Char (c : cclass)
| Repeat (c : cclass) (min : nat) (max : option nat)  (* c{min,max}, greedy *)
| Lookahead (r : regex)            (* (?=r) *)
| Bol                              (* ^ *)
| Eol                              (* $ *)
| Cat (r1 r2 : regex).

Definition between (lo hi c : code_unit) : bool :=
  (N.leb lo c && N.leb c hi)%bool.

(** \d is [0-9]. *)
Definition is_digit (c : code_unit) : bool := between (chr "0") (chr "9") c.

(** LineTerminator: LF, CR, LS, PS. *)
Definition is_line_terminator (c : code_unit) : bool :=
  (N.eqb c 10 || N.eqb c 13 || N.eqb c 8232 || N.eqb c 8233)%bool.

(** \s is WhiteSpace or LineTerminator: TAB, VT, FF, SP, NBSP, ZWNBSP,
    the space separators (category Zs) and the line terminators. *)
Definition is_space (c : code_unit) : bool :=
  (N.eqb c 9 || N.eqb c 11 || N.eqb c 12 || N.eqb c 32 || N.eqb c 160
   || N.eqb c 5760 || between 8192 8202 c || N.eqb c 8239
   || N.eqb c 8287 || N.eqb c 12288 || N.eqb c 65279
   || is_line_terminator c)%bool.

Definition in_atom (a : atom) (c : code_unit) : bool :=
  match a with
  | AChar x => N.eqb c x
  | ARange lo hi => between lo hi c
  | ADigit => is_digit c
  | ASpace => is_space c
  end.

Definition in_class (cl : cclass) (c : code_unit) : bool :=
  match cl with
  | Dot => negb (is_line_terminator c)
  | One a => in_atom a c
  | Class negated items =>
      xorb negated (existsb (fun a => in_atom a c) items)
  end.

(** A backtracking matcher in continuation-passing style.  [at0] tells
    whether the current position is index 0 of the input ([^] has no
    multiline flag here); [k] is the rest of the pattern. *)
Definition cont : Type := bool -> jsstring -> bool.

Definition accept : cont := fun _ _ => true.

Fixpoint repeat_match (c : cclass) (min : nat) (max : option nat)
    (at0 : bool) (s : jsstring) (k : cont) {struct s} : bool :=
  let stop := match min with O => k at0 s | S _ => false end in
  match max with
  | Some O => stop
  | _ =>
      match s with
      | x :: s' =>
          if in_class c x
          then (repeat_match c (Nat.pred min) (Nat.pred <$> max) false s' k
                || stop)%bool
          else stop
      | [] => stop
      end
  end.

Fixpoint rmatch (r : regex) (at0 : bool) (s : jsstring) (k : cont) : bool :=
  match r with
  | Empty => k at0 s
  | Char c =>
      match s with
      | x :: s' => (in_class c x && k false s')%bool
      | [] => false
      end
  | Repeat c min max => repeat_match c min max at0 s k
  | Lookahead r' => (rmatch r' at0 s accept && k at0 s)%bool
  | Bol => (at0 && k at0 s)%bool
  | Eol => match s with [] => k at0 s | _ :: _ => false end
  | Cat r1 r2 => rmatch r1 at0 s (fun a t => rmatch r2 a t k)
  end.

(** [RegExp.prototype.test] for a pattern without the g and y flags:
    the match is attempted at every start index, from 0 upwards. *)
Fixpoint search (r : regex) (at0 : bool) (s : jsstring) : bool :=
  (rmatch r at0 s accept
   || match s with [] => false | _ :: s' => search r false s' end)%bool.

Definition test (r : regex) (s : jsstring) : bool := search r true s.

Definition star (c : cclass) : regex := Repeat c 0 None.
Definition plus (c : cclass) : regex := Repeat c 1 None.
Definition lit (s : string) : cclass :=
  One (AChar (chr s)).
Arguments lit s%_string.

Fixpoint seq (rs : list regex) : regex :=
  match rs with
  | [] => Empty
  | [r] => r
  | r :: rs' => Cat r (seq rs')
  end.

End RegExp.

Import RegExp.

(** The regular-expression literals of [handleSubmit]. *)

(** [/\d/] *)
Definition re_digit : regex := Char (One ADigit).

(** [/^[^\s@]+@[^\s@]+\.[^\s@]+$/] *)
Definition re_email : regex :=
  let part := plus (Class true [ASpace; AChar (chr "@")]) in
  seq [Bol; part; Char (lit "@"); part; Char (lit "."); part; Eol].

(** [/^\+\d{2}\d{1,2}\d{7,8}$/] *)
Definition re_phone : regex :=
  seq [Bol; Char (lit "+");
       Repeat (One ADigit) 2 (Some 2);
       Repeat (One ADigit) 1 (Some 2);
       Repeat (One ADigit) 7 (Some 8);
       Eol].

(** [/^(?=.*[a-z])(?=.*[A-Z])(?=.*\d).{8,}$/] *)
Definition re_password : regex :=
  seq [Bol;
       Lookahead (Cat (star Dot) (Char (Class false [ARange (chr "a") (chr "z")])));
       Lookahead (Cat (star Dot) (Char (Class false [ARange (chr "A") (chr "Z")])));
       Lookahead (Cat (star Dot) (Char (One ADigit)));
       Repeat Dot 8 None;
       Eol].

(** ** JavaScript values *)

(** A Number, by its exact value. *)
Inductive number : Type :=
| NaN
| Infinity (negative : bool)
| Finite (q : Q).

(** The values a response can be: [undefined] and what a JSON body
    decodes to.  An object is plain data, given by its own properties,
    none of which is callable; its prototype is [Object.prototype]. *)
Inductive jsval : Type :=
| JUndefined
| JNull
| JBool (b : bool)
| JNumber (n : number)
| JString (s : jsstring)
| JArray (items : list jsval)
| JObject (props : list (jsstring * jsval)).

(** The two conversions between text and numbers are left to the runtime:
    neither throws, and nothing proved about the handlers depends on what
    they compute. *)
Class NumericText : Type := {
  StringToNumber : jsstring -> number;
  NumberToString : number -> jsstring
}.

(** The two property names [handleSubmit] reads from the response. *)
Inductive propname : Type := P_errors | P_length.

Definition propname_key (p : propname) : jsstring :=
  match p with
  | P_errors => js "errors"
  | P_length => js "length"
  end.

Fixpoint own_property (props : list (jsstring * jsval)) (key : jsstring)
    : option jsval :=
  match props with
  | [] => None
  | (k, v) :: props' =>
      if decide (k = key) then Some v else own_property props' key
  end.

Definition ToBoolean (v : jsval) : bool :=
  match v with
  | JUndefined | JNull => false
  | JBool b => b
  | JNumber NaN => false
  | JNumber (Infinity _) => true
  | JNumber (Finite q) => negb (Qeq_bool q 0)
  | JString s => negb (bool_decide (s = []))
  | JArray _ | JObject _ => true
  end.

(** [v.errors] and [v.length].  Reading a property of [undefined] or
    [null] throws a TypeError ([None]); neither name is inherited from
    a built-in prototype, [length] is an own property of strings and
    arrays. *)
Definition Get (v : jsval) (p : propname) : option jsval :=
  match v with
  | JUndefined | JNull => None
  | JBool _ | JNumber _ => Some JUndefined
  | JString s =>
      Some match p with
           | P_length => JNumber (Finite (inject_Z (Z.of_nat (length s))))
           | P_errors => JUndefined
           end
  | JArray items =>
      Some match p with
           | P_length => JNumber (Finite (inject_Z (Z.of_nat (length items))))
           | P_errors => JUndefined
           end
  | JObject props => Some (default JUndefined (own_property props (propname_key p)))
  end.

Section Coercions.
Context `{!NumericText}.

Fixpoint join (sep : jsstring) (parts : list jsstring) : jsstring :=
  match parts with
  | [] => []
  | [p] => p
  | p :: parts' => p ++ sep ++ join sep parts'
  end.

(** [ToString], which throws a TypeError ([None]) on an object that has no
    callable [toString]: a plain object inherits [Object.prototype]'s
    unless it has an own property of that name, which, coming from data,
    is not callable; then [valueOf] gives no primitive either.  An array
    is joined with commas, [undefined] and [null] as the empty string. *)
Fixpoint ToString (v : jsval) : option jsstring :=
  match v with
  | JUndefined => Some (js "undefined")
  | JNull => Some (js "null")
  | JBool b => Some (if b then js "true" else js "false")
  | JNumber n => Some (NumberToString n)
  | JString s => Some s
  | JArray items =>
      join (js ",") <$>
        (fix elements (xs : list jsval) : option (list jsstring) :=
           match xs with
           | [] => Some []
           | x :: xs' =>
               match x with
               | JUndefined | JNull => Some []
               | _ => ToString x
               end ≫= fun p => cons p <$> elements xs'
           end) items
  | JObject props =>
      match own_property props (js "toString") with
      | Some _ => None
      | None => Some (js "[object Object]")
      end
  end.

(** [ToPrimitive] with hint number: for an object or an array, [valueOf]
    is tried first and answers the object itself, so the primitive is
    what [toString] gives. *)
Definition ToPrimitive (v : jsval) : option jsval :=
  match v with
  | JArray _ | JObject _ => JString <$> ToString v
  | _ => Some v
  end.

Definition ToNumber (v : jsval) : option number :=
  ToPrimitive v ≫= fun prim =>
    match prim with
    | JUndefined => Some NaN
    | JNull => Some (Finite 0)
    | JBool b => Some (Finite (if b then 1 else 0))
    | JNumber n => Some n
    | JString s => Some (StringToNumber s)
    | JArray _ | JObject _ => None
    end.

(** [v < 1]: the other operand is a Number, so [v] is converted to a
    Number, which may throw; a comparison with NaN is false. *)
Definition less_than_one (v : jsval) : option bool :=
  ToNumber v ≫= fun n =>
    Some match n with
         | NaN => false
         | Infinity negative => negative
         | Finite q => negb (Qle_bool 1 q)
         end.

(** [response && response.errors && response.errors.length < 1], as the
    condition of an [if]; [None] when its evaluation throws. *)
Definition no_errors (response : jsval) : option bool :=
  if ToBoolean response then
    errors ← Get response P_errors;
    if ToBoolean errors then
      len ← Get errors P_length;
      less_than_one len
    else Some false
  else Some false.

End Coercions.

(** ** Component state *)

(** An [errorMessage] entry: [false] or a message. *)
Inductive errval : Type :=
| EFalse
| EMsg (m : jsstring).

(** The four [useState] cells of [Register].  [formData] and
    [errorMessage] are objects, handled through spread and (for
    [formData]) a computed key. *)
Record State : Type := {
  successMessage : jsstring;
  showSuccess : bool;
  errorMessage : gmap jsstring errval;
  formData : gmap jsstring jsstring
}.

Definition initial : State := {|
  successMessage := [];
  showSuccess := false;
  errorMessage :=
    <[js "firstNameError" := EFalse]>
    (<[js "lastNameError" := EFalse]>
    (<[js "emailError" := EFalse]>
    (<[js "phoneNumberError" := EFalse]>
    (<[js "passwordError" := EFalse]>
    (<[js "confirmPasswordError" := EFalse]> ∅)))));
  formData :=
    <[js "firstName" := []]>
    (<[js "lastName" := []]>
    (<[js "email" := []]>
    (<[js "phoneNumber" := []]>
    (<[js "password" := []]>
    (<[js "confirmPassword" := []]> ∅)))))
|}.

(** ** Handlers as programs *)

Inductive callback : Type :=
| Navigate (to : jsstring).          (* () => navigate(to) *)

(** What a handler does to the outside, in order.  The updater given to
    [setErrorMessage] is always [prevState => ({...prevState, k: v, ...})]
    and is kept as the list of its assignments. *)
Inductive event : Type :=
| PreventDefault
| Put (url : jsstring) (body : gmap jsstring jsstring)
| SetSuccessMessage (m : jsstring)
| SetShowSuccess (b : bool)
| SetTimeout (cb : callback) (ms : N)
| SetErrorMessage (assignments : list (jsstring * errval))
| SetFormData (fd : gmap jsstring jsstring)
| Uncaught.

(** A handler run: it acts, awaits the network adapter, returns or
    throws. *)
Inductive prog : Type :=
| Return
| Throw
| Do (e : event) (k : prog)
| AwaitPut (url : jsstring) (body : gmap jsstring jsstring) (k : jsval -> prog).

(** Statements take the rest of the function body; [return] drops it. *)
Definition stmt : Type := prog -> prog.

Definition exec (e : event) : stmt := Do e.
Definition return_ : stmt := fun _ => Return.
Definition seq_ (s1 s2 : stmt) : stmt := fun k => s1 (s2 k).
Definition await_put (url : jsstring) (body : gmap jsstring jsstring)
    (body_after : jsval -> stmt) : stmt :=
  fun k => AwaitPut url body (fun response => body_after response k).

(** [if (c) s1 else s2], where evaluating [c] may throw. *)
Definition if_ (c : option bool) (s1 s2 : stmt) : stmt :=
  fun k =>
    match c with
    | None => Throw
    | Some true => s1 k
    | Some false => s2 k
    end.

Definition skip : stmt := fun k => k.

Declare Scope stmt_scope.
Delimit Scope stmt_scope with stmt.
Bind Scope stmt_scope with stmt.
Notation "s1 ;; s2" := (seq_ s1 s2)
  (at level 100, s2 at level 200, right associativity) : stmt_scope.
Local Open Scope stmt_scope.

(** Expressions over a field of [formData], which is [undefined] when the
    object has no such property. *)

(** [x.length] *)
Definition length_of (x : option jsstring) : option nat := length <$> x.

(** [re.test(x)]: the argument is converted to a string. *)
Definition test_ (re : regex) (x : option jsstring) : option bool :=
  Some (test re (default (js "undefined") x)).

(** [a < b] on numbers that cannot throw. *)
Definition lt_ (a : option nat) (b : nat) : option bool :=
  (fun n => n <? b) <$> a.

(** [x !== y] on strings or [undefined]. *)
Definition strict_ne (x y : option jsstring) : option bool :=
  Some (negb (bool_decide (x = y))).

(** [e === false] *)
Definition is_false (e : option bool) : option bool := negb <$> e.

Definition preventDefault : stmt := exec PreventDefault.
Definition setSuccessMessage (m : jsstring) : stmt := exec (SetSuccessMessage m).
Definition setShowSuccess (b : bool) : stmt := exec (SetShowSuccess b).
Definition setTimeout (cb : callback) (ms : N) : stmt := exec (SetTimeout cb ms).
Definition setFormData (fd : gmap jsstring jsstring) : stmt := exec (SetFormData fd).
Definition setErrorMessage (assignments : list (jsstring * errval)) : stmt :=
  exec (SetErrorMessage assignments).

Section Register.
Context `{!NumericText}.

(** [REGISTRATION_MESSAGES.SUCCESS], from [utils/constants]. *)
Variable SUCCESS : jsstring.

(** [const handleChange = (e) => { ... }], with [e.target.name] and
    [e.target.value]. *)
Definition handleChange (st : State) (name value : jsstring) : prog :=
  setFormData (<[name := value]> (formData st)) Return.

Definition handleSubmit (st : State) : prog :=
  let formData := formData st in
  (preventDefault ;;
   await_put (js "/api/users/register") formData (fun response =>
     if_ (no_errors response)
       (setSuccessMessage SUCCESS ;;
        setShowSuccess true ;;
        setTimeout (Navigate (js "/login")) 2000)
       skip ;;
     (* Firstname input validation *)
     if_ (lt_ (length_of (formData !! js "firstName")) 2)
       (setErrorMessage
          [(js "firstNameError", EMsg (js "Must be at least 2 characters long"))] ;;
        return_)
       (if_ (test_ re_digit (formData !! js "firstName"))
          (setErrorMessage
             [(js "firstNameError", EMsg (js "The field cannot contain numbers"))] ;;
           return_)
          (setErrorMessage [(js "firstNameError", EFalse)])) ;;
     (* Lastname input validation *)
     if_ (lt_ (length_of (formData !! js "lastName")) 2)
       (setErrorMessage
          [(js "lastNameError", EMsg (js "Must be at least 2 characters long"))] ;;
        return_)
       (if_ (test_ re_digit (formData !! js "lastName"))
          (setErrorMessage
             [(js "lastNameError", EMsg (js "The field cannot contain numbers"))] ;;
           return_)
          (setErrorMessage [(js "lastNameError", EFalse)])) ;;
     (* Email input validation *)
     if_ (is_false (test_ re_email (formData !! js "email")))
       (setErrorMessage [(js "emailError", EMsg (js "Incorrect email adress"))] ;;
        return_)
       (setErrorMessage [(js "emailError", EFalse)]) ;;
     (* Phone number validation *)
     if_ (is_false (test_ re_phone (formData !! js "phoneNumber")))
       (setErrorMessage
          [(js "phoneNumberError",
            EMsg (js "Incorrect phone number format e.g.(+36302748465)"))] ;;
        return_)
       (setErrorMessage [(js "phoneNumberError", EFalse)]) ;;
     (* Password validator *)
     if_ (is_false (test_ re_password (formData !! js "password")))
       (setErrorMessage
          [(js "passwordError", EMsg (js "Min. 8 characters, upper and lowercase"))] ;;
        return_)
       (if_ (is_false (test_ re_password (formData !! js "confirmPassword")))
          (setErrorMessage
             [(js "confirmPasswordError",
               EMsg (js "Min. 8 characters, upper and lowercase"))] ;;
           return_)
          (if_ (strict_ne (formData !! js "password")
                          (formData !! js "confirmPassword"))
             (setErrorMessage
                [(js "passwordError", EMsg (js "The passwords don't match"))] ;;
              return_)
             (setErrorMessage [(js "passwordError", EFalse);
                               (js "confirmPasswordError", EFalse)]))))
  ) Return.

End Register.

(** ** Running a handler *)

(** How the awaited promise settles. *)
Inductive outcome : Type :=
| Resolved (response : jsval)
| Rejected.

(** The events of a run, in order; a rejected promise is rethrown by
    [await]. *)
Fixpoint run (net : jsstring -> gmap jsstring jsstring -> outcome) (p : prog)
    : list event :=
  match p with
  | Return => []
  | Throw => [Uncaught]
  | Do e k => e :: run net k
  | AwaitPut url body k =>
      Put url body ::
      match net url body with
      | Resolved response => run net (k response)
      | Rejected => [Uncaught]
      end
  end.

(** [{...prevState, k1: v1, ...}] *)
Definition assign (prevState : gmap jsstring errval)
    (assignments : list (jsstring * errval)) : gmap jsstring errval :=
  foldl (fun m kv => <[kv.1 := kv.2]> m) prevState assignments.

(** The state setters, applied in the order they were called. *)
Definition update (st : State) (e : event) : State :=
  match e with
  | SetSuccessMessage m =>
      {| successMessage := m; showSuccess := showSuccess st;
         errorMessage := errorMessage st; formData := formData st |}
  | SetShowSuccess b =>
      {| successMessage := successMessage st; showSuccess := b;
         errorMessage := errorMessage st; formData := formData st |}
  | SetErrorMessage assignments =>
      {| successMessage := successMessage st; showSuccess := showSuccess st;
         errorMessage := assign (errorMessage st) assignments;
         formData := formData st |}
  | SetFormData fd =>
      {| successMessage := successMessage st; showSuccess := showSuccess st;
         errorMessage := errorMessage st; formData := fd |}
  | PreventDefault | Put _ _ | SetTimeout _ _ | Uncaught => st
  end.

Definition after (st : State) (events : list event) : State :=
  foldl update st events.

(** ** What the patterns denote *)

(** [matches r at0 s at0' s']: some match of [r] starting at [s] (at
    index 0 of the input iff [at0]) ends at [s']. *)
Fixpoint matches (r : regex) (at0 : bool) (s : jsstring)
    (at0' : bool) (s' : jsstring) : Prop :=
  match r with
  | Empty => at0' = at0 ∧ s' = s
  | Char c => ∃ x, s = x :: s' ∧ in_class c x = true ∧ at0' = false
  | Repeat c min max =>
      ∃ p, s = p ++ s' ∧ Forall (fun x => in_class c x = true) p
           ∧ min ≤ length p ∧ (∀ h, max = Some h → length p ≤ h)
           ∧ at0' = (at0 && bool_decide (p = []))%bool
  | Lookahead r' => (∃ a t, matches r' at0 s a t) ∧ at0' = at0 ∧ s' = s
  | Bol => at0 = true ∧ at0' = at0 ∧ s' = s
  | Eol => s = [] ∧ at0' = at0 ∧ s' = s
  | Cat r1 r2 => ∃ a t, matches r1 at0 s a t ∧ matches r2 a t at0' s'
  end.

(** ** The validation rules, as the specification words them *)

Definition digit (c : code_unit) : Prop := (chr "0" ≤ c ≤ chr "9")%N.
Definition lowercase (c : code_unit) : Prop := (chr "a" ≤ c ≤ chr "z")%N.
Definition uppercase (c : code_unit) : Prop := (chr "A" ≤ c ≤ chr "Z")%N.
Definition line_terminator (c : code_unit) : Prop :=
  c = 10%N ∨ c = 13%N ∨ c = 8232%N ∨ c = 8233%N.
Definition whitespace (c : code_unit) : Prop := is_space c = true.

(** Name fields: length at least 2, no digit. *)
Definition name_too_short (v : jsstring) : Prop := length v < 2.
Definition name_has_digit (v : jsstring) : Prop := Exists digit v.
Definition name_invalid (v : jsstring) : Prop :=
  name_too_short v ∨ name_has_digit v.

(** Email: [local@domain.tld], the three parts nonempty and free of
    whitespace and of [@]. *)
Definition email_part (p : jsstring) : Prop :=
  p ≠ [] ∧ Forall (fun c => ¬ whitespace c ∧ c ≠ chr "@") p.
Definition email_shape (v : jsstring) : Prop :=
  ∃ local domain tld,
    v = local ++ js "@" ++ domain ++ js "." ++ tld
    ∧ email_part local ∧ email_part domain ∧ email_part tld.

(** Phone: [+], a 2-digit country code, a 1-2 digit area code, a 7-8
    digit number. *)
Definition phone_shape (v : jsstring) : Prop :=
  ∃ country area number,
    v = js "+" ++ country ++ area ++ number
    ∧ Forall digit country ∧ Forall digit area ∧ Forall digit number
    ∧ length country = 2
    ∧ 1 ≤ length area ≤ 2
    ∧ 7 ≤ length number ≤ 8.

(** The same, counted in total: [+] and 10 to 12 digits. *)
Definition plus_and_digits (v : jsstring) : Prop :=
  ∃ digits, v = js "+" ++ digits ∧ Forall digit digits
            ∧ 10 ≤ length digits ≤ 12.

(** Password: at least 8 characters, with a lowercase letter, an
    uppercase letter and a digit. *)
Definition password_rule (v : jsstring) : Prop :=
  8 ≤ length v ∧ Exists lowercase v ∧ Exists uppercase v ∧ Exists digit v.

(** The rule the pattern enforces on top of it: [.] matches no line
    terminator. *)
Definition single_line (v : jsstring) : Prop :=
  Forall (fun c => ¬ line_terminator c) v.

(** ** The form and its validations in order *)

Definition fields : list jsstring :=
  [js "firstName"; js "lastName"; js "email"; js "phoneNumber";
   js "password"; js "confirmPassword"].

Definition error_keys : list jsstring :=
  [js "firstNameError"; js "lastNameError"; js "emailError";
   js "phoneNumberError"; js "passwordError"; js "confirmPasswordError"].

(** A [formData] with its six fields. *)
Definition has_fields (fd : gmap jsstring jsstring) : Prop :=
  Forall (fun k => is_Some (fd !! k)) fields.

Definition field (fd : gmap jsstring jsstring) (k : string) : jsstring :=
  default (js "undefined") (fd !! js k).
Arguments field fd k%_string.

(** One validation: the entries it clears when it passes, or the entry
    and message it reports. *)
Record validation : Type := {
  clears : list jsstring;
  failure : option (jsstring * jsstring)
}.

Definition name_failure (v : jsstring) : option jsstring :=
  if length v <? 2 then Some (js "Must be at least 2 characters long")
  else if test re_digit v then Some (js "The field cannot contain numbers")
  else None.

Definition email_failure (v : jsstring) : option jsstring :=
  if test re_email v then None else Some (js "Incorrect email adress").

Definition phone_failure (v : jsstring) : option jsstring :=
  if test re_phone v then None
  else Some (js "Incorrect phone number format e.g.(+36302748465)").

Definition password_failure (password confirmPassword : jsstring)
    : option (jsstring * jsstring) :=
  if negb (test re_password password)
  then Some (js "passwordError", js "Min. 8 characters, upper and lowercase")
  else if negb (test re_password confirmPassword)
  then Some (js "confirmPasswordError", js "Min. 8 characters, upper and lowercase")
  else if bool_decide (password = confirmPassword) then None
  else Some (js "passwordError", js "The passwords don't match").

(** first name, last name, email, phone, password/confirm *)
Definition validations (fd : gmap jsstring jsstring) : list validation :=
  [ {| clears := [js "firstNameError"];
       failure := pair (js "firstNameError") <$> name_failure (field fd "firstName") |};
    {| clears := [js "lastNameError"];
       failure := pair (js "lastNameError") <$> name_failure (field fd "lastName") |};
    {| clears := [js "emailError"];
       failure := pair (js "emailError") <$> email_failure (field fd "email") |};
    {| clears := [js "phoneNumberError"];
       failure := pair (js "phoneNumberError") <$> phone_failure (field fd "phoneNumber") |};
    {| clears := [js "passwordError"; js "confirmPasswordError"];
       failure := password_failure (field fd "password") (field fd "confirmPassword") |} ].

Definition passes (v : validation) : Prop := failure v = None.

(** What a validation that passes does: its entries are set to [false]. *)
Definition cleared (v : validation) : event :=
  SetErrorMessage (map (fun k => (k, EFalse)) (clears v)).

(** Running validations in order, stopping at the first failure: each
    one that passes clears its entries, the one that fails sets its
    message and nothing follows. *)
Fixpoint report (vs : list validation) : list event :=
  match vs with
  | [] => []
  | v :: vs' =>
      match failure v with
      | Some (key, message) => [SetErrorMessage [(key, EMsg message)]]
      | None => cleared v :: report vs'
      end
  end.

(** The message of a name field: the length is checked first. *)
Definition name_message (v : jsstring) : jsstring :=
  if length v <? 2 then js "Must be at least 2 characters long"
  else js "The field cannot contain numbers".

(** [{...em, k1: false, ...}] *)
Definition clear_all (keys : list jsstring) (em : gmap jsstring errval)
    : gmap jsstring errval :=
  foldl (fun m k => <[k := EFalse]> m) em keys.

(** The success notification and the delayed navigation. *)
Definition success_events (SUCCESS : jsstring) : list event :=
  [SetSuccessMessage SUCCESS; SetShowSuccess true;
   SetTimeout (Navigate (js "/login")) 2000].

Definition is_success_event (e : event) : bool :=
  match e with
  | SetSuccessMessage _ | SetShowSuccess _ | SetTimeout _ _ => true
  | _ => false
  end.

Definition is_validation_event (e : event) : bool :=
  match e with
  | SetErrorMessage _ => true
  | _ => false
  end.

(** The messages a run assigns, with their entries. *)
Definition reported (events : list event) : list (jsstring * jsstring) :=
  events ≫= fun e =>
    match e with
    | SetErrorMessage assignments =>
        assignments ≫= fun kv =>
          match kv.2 with EMsg m => [(kv.1, m)] | EFalse => [] end
    | _ => []
    end.

(** The entries a run assigns. *)
Definition assigned (events : list event) : list jsstring :=
  events ≫= fun e =>
    match e with
    | SetErrorMessage assignments => assignments.*1
    | _ => []
    end.

(** The response indicates no errors: it is truthy, its [errors] is
    truthy, and the [length] of that is below 1. *)
Definition indicates_no_errors `{!NumericText} (response : jsval) : Prop :=
  ToBoolean response = true
  ∧ ∃ errors, Get response P_errors = Some errors
      ∧ ToBoolean errors = true
      ∧ ∃ len, Get errors P_length = Some len
               ∧ less_than_one len = Some true.

(** The condition of the first [if] can be evaluated: the comparison
    with 1 does not throw. *)
Definition evaluates `{!NumericText} (response : jsval) : Prop :=
  is_Some (no_errors response).

(** A value that has no primitive value: an object with an own
    [toString] property, or an array that holds such a value. *)
Inductive no_primitive : jsval → Prop :=
| no_primitive_object props :
    is_Some (own_property props (js "toString")) →
    no_primitive (JObject props)
| no_primitive_array items item :
    item ∈ items → no_primitive item → no_primitive (JArray items).

(** The responses on which the comparison with 1 throws: an object whose
    [errors] is an object whose [length] has no primitive value. *)
Definition throws (response : jsval) : Prop :=
  ∃ props errors len,
    response = JObject props
    ∧ own_property props (js "errors") = Some (JObject errors)
    ∧ own_property errors (js "length") = Some len
    ∧ no_primitive len.

(** ** Data for the examples *)

(** What the runtime answers on text that is no numeric literal and on a
    number that is no number; the examples never ask. *)
Definition plain_text : NumericText := {|
  StringToNumber := fun _ => NaN;
  NumberToString := fun _ => js "NaN"
|}.

Definition form (firstName lastName email phoneNumber password
    confirmPassword : jsstring) : gmap jsstring jsstring :=
  <[js "firstName" := firstName]>
  (<[js "lastName" := lastName]>
  (<[js "email" := email]>
  (<[js "phoneNumber" := phoneNumber]>
  (<[js "password" := password]>
  (<[js "confirmPassword" := confirmPassword]> ∅))))).

Definition with_form (fd : gmap jsstring jsstring) (st : State) : State :=
  {| successMessage := successMessage st; showSuccess := showSuccess st;
     errorMessage := errorMessage st; formData := fd |}.

Definition with_errors (em : gmap jsstring errval) (st : State) : State :=
  {| successMessage := successMessage st; showSuccess := showSuccess st;
     errorMessage := em; formData := formData st |}.

(** A form that passes every validation. *)
Definition ada : gmap jsstring jsstring :=
  form (js "Ada") (js "Lovelace") (js "ada@example.org") (js "+36302748465")
       (js "Secret123") (js "Secret123").

(** A response whose [errors.length] cannot be compared with 1. *)
Definition unreadable : jsval :=
  JObject [(js "errors",
            JObject [(js "length", JObject [(js "toString", JNull)])])].

(** An adapter that answers every request with the same value. *)
Definition answers (response : jsval)
    : jsstring → gmap jsstring jsstring → outcome :=
  fun _ _ => Resolved response.

(** A validation reports on one of the entries it is in charge of. *)
Definition well_keyed (v : validation) : Prop :=
  ∀ key message, failure v = Some (key, message) → key ∈ clears v.

(** The name fields pass, so that the email check is reached. *)
Definition reaches_email (fd : gmap jsstring jsstring) : Prop :=
  ¬ name_invalid (field fd "firstName") ∧ ¬ name_invalid (field fd "lastName").

Definition reaches_phone (fd : gmap jsstring jsstring) : Prop :=
  reaches_email fd ∧ email_shape (field fd "email").

Definition reaches_password (fd : gmap jsstring jsstring) : Prop :=
  reaches_phone fd ∧ phone_shape (field fd "phoneNumber").

(** What the password pattern accepts. *)
Definition password_accepted (v : jsstring) : Prop :=
  password_rule v ∧ single_line v.

(** States reached through the handlers, for the examples. *)
Definition typed (name value : jsstring) (st : State) : State :=
  after st (run (answers JUndefined) (handleChange st name value)).

Definition submitted (response : jsval) (st : State) : State :=
  after st (run (answers response) (@handleSubmit plain_text (js "Welcome") st)).

(** The rules on characters can be computed. *)
#[global] Instance digit_dec c : Decision (digit c) :=
  ltac:(unfold digit; apply _).
#[global] Instance lowercase_dec c : Decision (lowercase c) :=
  ltac:(unfold lowercase; apply _).
#[global] Instance uppercase_dec c : Decision (uppercase c) :=
  ltac:(unfold uppercase; apply _).
#[global] Instance password_rule_dec v : Decision (password_rule v) :=
  ltac:(unfold password_rule; apply _).
#[global] Instance name_invalid_dec v : Decision (name_invalid v) :=
  ltac:(unfold name_invalid, name_too_short, name_has_digit; apply _).

(** ** What the component renders *)

(** The children of the form, in document order.  The wrapping [div]s and
    the [className]s carry no behaviour and are left out; every [Input]
    has [onChange={handleChange}], the form has
    [onSubmit={handleSubmit}]. *)
Inductive element : Type :=
| Heading (text : jsstring)                             (* h2 *)
| Paragraph (text : jsstring)                           (* p *)
| Input (type name placeholder : jsstring)
        (value : option jsstring) (autoComplete : jsstring)
| Toast (type message : jsstring) (dismissError : bool)
| Button (type label : jsstring)
| Link (to label : jsstring).

(** [{errorMessage.k && <Toast type="error" message={errorMessage.k} />}]:
    [false], [undefined] and the empty string render nothing. *)
Definition error_toast (entry : option errval) : list element :=
  match entry with
  | Some (EMsg m) =>
      if bool_decide (m = []) then [] else [Toast (js "error") m false]
  | Some EFalse | None => []
  end.

(** [{showSuccess && <Toast type="success" message={successMessage}
    dismissError />}] *)
Definition success_toast (st : State) : list element :=
  if showSuccess st then [Toast (js "success") (successMessage st) true]
  else [].

Definition render (st : State) : list element :=
  [Heading (js "Join the Adventure!");
   Paragraph (js "Create your account and start your journey with us");
   Input (js "text") (js "firstName") (js "First Name")
         (formData st !! js "firstName") (js "given-name")]
  ++ error_toast (errorMessage st !! js "firstNameError")
  ++ [Input (js "text") (js "lastName") (js "Last Name")
            (formData st !! js "lastName") (js "family-name")]
  ++ error_toast (errorMessage st !! js "lastNameError")
  ++ [Input (js "text") (js "email") (js "Email")
            (formData st !! js "email") (js "email")]
  ++ error_toast (errorMessage st !! js "emailError")
  ++ [Input (js "tel") (js "phoneNumber") (js "+36303674565")
            (formData st !! js "phoneNumber") (js "tel")]
  ++ error_toast (errorMessage st !! js "phoneNumberError")
  ++ [Input (js "password") (js "password") (js "Password")
            (formData st !! js "password") (js "new-password")]
  ++ error_toast (errorMessage st !! js "passwordError")
  ++ [Input (js "password") (js "confirmPassword") (js "Confirm Password")
            (formData st !! js "confirmPassword") (js "new-password")]
  ++ error_toast (errorMessage st !! js "confirmPasswordError")
  ++ [Button (js "submit") (js "Register");
      Link (js "/login") (js "Back to login")]
  ++ success_toast st.

(** The toasts on screen, as (type, message). *)
Definition toasts (st : State) : list (jsstring * jsstring) :=
  render st ≫= fun el =>
    match el with
    | Toast type message _ => [(type, message)]
    | _ => []
    end.

(** The [name] attributes of the inputs on screen. *)
Definition input_names (st : State) : list jsstring :=
  render st ≫= fun el =>
    match el with
    | Input _ name _ _ _ => [name]
    | _ => []
    end.

(** The [value] shown by the input of a given name. *)
Fixpoint find_input (els : list element) (name : jsstring)
    : option (option jsstring) :=
  match els with
  | [] => None
  | Input _ n _ value _ :: els' =>
      if decide (n = name) then Some value else find_input els' name
  | _ :: els' => find_input els' name
  end.

Definition input_value (st : State) (name : jsstring) : option jsstring :=
  mjoin (find_input (render st) name).

(** ** The component in use *)

(** One event of the page: a change in one of the inputs on screen (with
    that input's [name] as [e.target.name]) or the submission of the
    form, answered by the adapter [net]. *)
Inductive step `{!NumericText} (SUCCESS : jsstring) : State → State → Prop :=
| step_change st net name value :
    name ∈ input_names st →
    step SUCCESS st (after st (run net (handleChange st name value)))
| step_submit st net :
    step SUCCESS st (after st (run net (handleSubmit SUCCESS st))).

(** The states the component can be in, from its mount on. *)
Definition reachable `{!NumericText} (SUCCESS : jsstring) (st : State) : Prop :=
  rtc (step SUCCESS) initial st.

(** The messages of [handleSubmit]. *)
Definition messages : list jsstring :=
  [js "Must be at least 2 characters long";
   js "The field cannot contain numbers";
   js "Incorrect email adress";
   js "Incorrect phone number format e.g.(+36302748465)";
   js "Min. 8 characters, upper and lowercase";
   js "The passwords don't match"].

(** The whole form follows the rules. *)
Definition form_valid (fd : gmap jsstring jsstring) : Prop :=
  reaches_password fd
  ∧ password_accepted (field fd "password")
  ∧ password_accepted (field fd "confirmPassword")
  ∧ field fd "password" = field fd "confirmPassword".

(** An adapter whose promise is rejected. *)
Definition rejects : jsstring → gmap jsstring jsstring → outcome :=
  fun _ _ => Rejected.

(** What holds of the state as long as the component lives: the two
    objects keep their six keys, every entry of [errorMessage] is [false]
    or one of the messages, and the success message is set exactly when
    the success toast is shown. *)
Definition well_formed (SUCCESS : jsstring) (st : State) : Prop :=
  dom (formData st) = list_to_set fields
  ∧ dom (errorMessage st) = list_to_set error_keys
  ∧ (∀ k m, errorMessage st !! k = Some (EMsg m) → m ∈ messages)
  ∧ successMessage st = (if showSuccess st then SUCCESS else []).

(** The toast of one entry, as (type, message). *)
Definition entry_toasts (entry : option errval) : list (jsstring * jsstring) :=
  match entry with
  | Some (EMsg m) => if bool_decide (m = []) then [] else [(js "error", m)]
  | Some EFalse | None => []
  end.

Definition is_request (e : event) : bool :=
  match e with
  | Put _ _ => true
  | _ => false
  end.

(** * Properties *)

(** ** The pattern literals on examples *)

Example re_email_ex1 : test re_email (js "a@b.c") = true.
Proof. reflexivity. Qed.
Example re_email_ex2 : test re_email (js "a@b.c.d") = true.
Proof. reflexivity. Qed.
Example re_email_ex3 : test re_email (js "a@b") = false.
Proof. reflexivity. Qed.
Example re_email_ex4 : test re_email (js "a b@c.d") = false.
Proof. reflexivity. Qed.
Example re_phone_ex1 : test re_phone (js "+36302748465") = true.
Proof. reflexivity. Qed.
Example re_phone_ex2 : test re_phone (js "+123456789") = false.
Proof. reflexivity. Qed.
Example re_phone_ex3 : test re_phone (js "+1234567890123") = false.
Proof. reflexivity. Qed.
Example re_password_ex1 : test re_password (js "Abcdefg1") = true.
Proof. reflexivity. Qed.
Example re_password_ex2 : test re_password (js "abcdefg1") = false.
Proof. reflexivity. Qed.
Example re_digit_ex1 : test re_digit (js "ab3") = true.
Proof. reflexivity. Qed.

(** [$] is the very end of the input, and [.] stops at a line
    terminator. *)
Example re_phone_ex4 : test re_phone (js "+36302748465" ++ [10%N]) = false.
Proof. reflexivity. Qed.
Example re_password_ex3 :
  test re_password (js "Secret123" ++ [8232%N]) = false.
Proof. reflexivity. Qed.

(** ** The success condition on examples *)

Example no_errors_ex1 :
  @no_errors plain_text (JObject [(js "errors", JArray [])]) = Some true.
Proof. reflexivity. Qed.
Example no_errors_ex2 :
  @no_errors plain_text
    (JObject [(js "data", JObject []);
              (js "errors", JArray [JString (js "Failed to fetch")])])
  = Some false.
Proof. reflexivity. Qed.
Example no_errors_ex3 : @no_errors plain_text JUndefined = Some false.
Proof. reflexivity. Qed.
Example no_errors_ex4 :
  @no_errors plain_text (JObject [(js "errors", JNull)]) = Some false.
Proof. reflexivity. Qed.
(** A length that cannot be converted to a number. *)
Example no_errors_ex6 : @no_errors plain_text unreadable = None.
Proof. reflexivity. Qed.
Example no_errors_ex7 :
  @no_errors plain_text
    (JObject [(js "errors", JObject [(js "length", JObject [])])])
  = Some false.
Proof. reflexivity. Qed.
Example no_errors_ex5 :
  @no_errors plain_text (JObject [(js "errors", JString (js "taken"))])
  = Some false.
Proof. reflexivity. Qed.


(** ** The matcher computes the denotation *)

Local Ltac side := intros; simpl in *; first [lia | done | idtac].

(** A decidable closed proposition, by evaluation. *)
Local Ltac by_computation :=
  apply (bool_decide_unpack _); vm_compute; exact I.

Lemma andb_nil_decide (at0 : bool) :
  (at0 && bool_decide (@nil N = []))%bool = at0.
Proof. by rewrite bool_decide_eq_true_2, andb_true_r. Qed.

Lemma repeat_match_spec c min max at0 s k :
  repeat_match c min max at0 s k = true ↔
  ∃ a t, matches (Repeat c min max) at0 s a t ∧ k a t = true.
Proof.
  revert min max at0. induction s as [|x s IH]; intros min max at0.
  - transitivity (match min with O => k at0 [] | S _ => false end = true).
    { simpl. by destruct max as [[|h]|]. }
    split.
    + destruct min; [|done]. intros Hk. exists at0, []. split; [|done].
      exists []. rewrite andb_nil_decide. split_and!; side.
    + intros (a & t & (p & Hs & _ & Hmin & _ & ->) & Hk).
      symmetry in Hs. apply app_eq_nil in Hs as [-> ->].
      simpl in Hmin. destruct min; [|lia].
      by rewrite andb_nil_decide in Hk.
  - set (stop := match min with O => k at0 (x :: s) | S _ => false end).
    assert (Hstop : stop = true ↔
              ∃ a t, matches (Repeat c min max) at0 (x :: s) a t
                     ∧ k a t = true ∧ t = x :: s).
    { subst stop. split.
      - destruct min; [|done]. intros Hk. exists at0, (x :: s).
        split; [|done]. exists []. rewrite andb_nil_decide. split_and!; side.
      - intros (a & t & (p & Hs & _ & Hmin & _ & ->) & Hk & ->).
        assert (p = []) as ->.
        { apply (f_equal length) in Hs. rewrite length_app in Hs.
          destruct p; [done|simpl in Hs; lia]. }
        simpl in Hmin. destruct min; [|lia].
        by rewrite andb_nil_decide in Hk. }
    assert (Hmore : in_class c x = true → max ≠ Some 0 →
              (repeat_match c (Nat.pred min) (Nat.pred <$> max) false s k = true ↔
               ∃ a t, matches (Repeat c min max) at0 (x :: s) a t
                      ∧ k a t = true ∧ t ≠ x :: s)).
    { intros Hx Hmax. rewrite IH. split.
      - intros (a & t & (p & -> & Hp & Hmin & Hmx & ->) & Hk).
        exists false, t. split; [|split; [done|]].
        + exists (x :: p). rewrite andb_false_r. split_and!; side.
          * by constructor.
          * subst max. destruct h as [|h]; [done|].
            specialize (Hmx h eq_refl). lia.
        + intros Ht. apply (f_equal length) in Ht.
          simpl in Ht. rewrite length_app in Ht. lia.
      - intros (a & t & (p & Hs & Hp & Hmin & Hmx & ->) & Hk & Hne).
        destruct p as [|y p]; [simpl in Hs; congruence|].
        simpl in Hs. injection Hs as <- ->. rewrite andb_false_r in Hk.
        exists false, t. split; [|done]. exists p.
        apply Forall_cons in Hp as [_ Hp]. simpl in Hmin.
        split_and!; side.
        destruct max as [m|]; [|done]. simpl in *.
        match goal with H : Some _ = Some _ |- _ => injection H as <- end.
        specialize (Hmx m eq_refl). lia. }
    assert (Hzero : ∀ a t, matches (Repeat c min max) at0 (x :: s) a t →
              (in_class c x = false ∨ max = Some 0) → t = x :: s).
    { intros a t (p & Hs & Hp & _ & Hmx & _) Hor.
      destruct p as [|y p]; [done|]. simpl in Hs. injection Hs as <- ->.
      apply Forall_cons in Hp as [Hy _].
      destruct Hor as [Hx| ->]; [congruence|].
      specialize (Hmx 0 eq_refl). simpl in Hmx. lia. }
    transitivity
      (match max with
       | Some O => stop
       | _ => if in_class c x
              then (repeat_match c (Nat.pred min) (Nat.pred <$> max) false s k
                    || stop)%bool
              else stop
       end = true).
    { simpl. by destruct max as [[|h]|]. }
    destruct (decide (max = Some 0)) as [->|Hmax].
    { rewrite Hstop. split.
      - intros (a & t & Hm & Hk & _). eauto.
      - intros (a & t & Hm & Hk). exists a, t. eauto. }
    transitivity ((if in_class c x
                   then (repeat_match c (Nat.pred min) (Nat.pred <$> max) false s k
                         || stop)%bool
                   else stop) = true).
    { by destruct max as [[|h]|]. }
    destruct (in_class c x) eqn:Hx.
    + rewrite orb_true_iff, Hstop, (Hmore eq_refl Hmax). split.
      * intros [(a & t & Hm & Hk & _)|(a & t & Hm & Hk & _)]; eauto.
      * intros (a & t & Hm & Hk).
        destruct (decide (t = x :: s)); [right|left]; exists a, t; eauto.
    + rewrite Hstop. split.
      * intros (a & t & Hm & Hk & _). eauto.
      * intros (a & t & Hm & Hk). exists a, t. eauto.
Qed.

Lemma rmatch_spec r at0 s k :
  rmatch r at0 s k = true ↔ ∃ a t, matches r at0 s a t ∧ k a t = true.
Proof.
  revert at0 s k. induction r as [|c|c min max|r IH| | |r1 IH1 r2 IH2];
    intros at0 s k; simpl rmatch.
  - simpl. split; [eauto|]. by intros (a & t & (-> & ->) & Hk).
  - destruct s as [|x s]; simpl.
    + split; [done|]. by intros (a & t & (y & Hs & _) & _).
    + rewrite andb_true_iff. split.
      * intros [Hx Hk]. exists false, s. eauto.
      * intros (a & t & (y & Hs & Hy & ->) & Hk). by injection Hs as <- <-.
  - apply repeat_match_spec.
  - rewrite andb_true_iff, IH. simpl. split.
    + intros [(a & t & Hm & _) Hk]. exists at0, s. eauto 10.
    + intros (a & t & ((a' & t' & Hm) & -> & ->) & Hk). eauto 10.
  - rewrite andb_true_iff. simpl. split.
    + intros [-> Hk]. exists true, s. eauto.
    + intros (a & t & (-> & -> & ->) & Hk). eauto.
  - destruct s as [|x s]; simpl.
    + split; [intros Hk; exists at0, []; eauto|].
      by intros (a & t & (_ & -> & ->) & Hk).
    + split; [done|]. by intros (a & t & (Hs & _) & _).
  - rewrite IH1. simpl. split.
    + intros (a & t & Hm1 & Hk). apply IH2 in Hk as (a' & t' & Hm2 & Hk).
      exists a', t'. eauto 10.
    + intros (a' & t' & (a & t & Hm1 & Hm2) & Hk). exists a, t.
      split; [done|]. apply IH2. eauto.
Qed.

(** ** What each pattern literal accepts *)

Lemma search_anchored r s : search (Cat Bol r) false s = false.
Proof. induction s as [|x s IH]; simpl; [done|]. by rewrite IH. Qed.

Lemma test_anchored r s :
  test (Cat Bol r) s = true ↔ ∃ a t, matches r true s a t.
Proof.
  unfold test.
  assert (Hs : search (Cat Bol r) true s = rmatch r true s accept).
  { destruct s; simpl; [by rewrite orb_false_r|].
    by rewrite search_anchored, orb_false_r. }
  rewrite Hs, rmatch_spec. split.
  - intros (a & t & Hm & _). eauto.
  - intros (a & t & Hm). by exists a, t.
Qed.

Lemma between_spec lo hi c : between lo hi c = true ↔ (lo ≤ c ≤ hi)%N.
Proof. unfold between. rewrite andb_true_iff, !N.leb_le. done. Qed.

Lemma is_digit_spec c : is_digit c = true ↔ digit c.
Proof. apply between_spec. Qed.

Lemma is_line_terminator_spec c :
  is_line_terminator c = true ↔ line_terminator c.
Proof.
  unfold is_line_terminator, line_terminator.
  rewrite !orb_true_iff, !N.eqb_eq. tauto.
Qed.

Lemma in_class_digit c : in_class (One ADigit) c = true ↔ digit c.
Proof. apply is_digit_spec. Qed.

Lemma in_class_dot c : in_class Dot c = true ↔ ¬ line_terminator c.
Proof.
  simpl. rewrite negb_true_iff, <- is_line_terminator_spec.
  by destruct (is_line_terminator c).
Qed.

Lemma in_class_lowercase c :
  in_class (Class false [ARange (chr "a") (chr "z")]) c = true ↔ lowercase c.
Proof. simpl. rewrite orb_false_r. apply between_spec. Qed.

Lemma in_class_uppercase c :
  in_class (Class false [ARange (chr "A") (chr "Z")]) c = true ↔ uppercase c.
Proof. simpl. rewrite orb_false_r. apply between_spec. Qed.

Lemma in_class_email_part c :
  in_class (Class true [ASpace; AChar (chr "@")]) c = true
  ↔ ¬ whitespace c ∧ c ≠ chr "@".
Proof.
  unfold whitespace. simpl.
  destruct (is_space c), (N.eqb_spec c (chr "@")); simpl; intuition congruence.
Qed.

Lemma in_class_lit_one (x c : code_unit) :
  in_class (One (AChar x)) c = true ↔ c = x.
Proof. simpl. apply N.eqb_eq. Qed.

(** [/\d/] finds a digit anywhere. *)
Lemma search_digit at0 v : search re_digit at0 v = true ↔ Exists digit v.
Proof.
  unfold re_digit. revert at0.
  induction v as [|x v IH]; intros at0; simpl.
  - split; [done|]. by intros ?%Exists_nil.
  - rewrite Exists_cons, orb_true_iff, andb_true_r, IH.
    by rewrite <- is_digit_spec.
Qed.

Lemma test_digit v : test re_digit v = true ↔ name_has_digit v.
Proof. apply search_digit. Qed.

Local Arguments in_class : simpl never.

Lemma Forall_in_class c (P : code_unit → Prop) p :
  (∀ x, in_class c x = true ↔ P x) →
  Forall (fun x => in_class c x = true) p ↔ Forall P p.
Proof. intros HP. apply Forall_iff. intros x. apply HP. Qed.

Lemma nonempty_length {A} (p : list A) : 1 ≤ length p ↔ p ≠ [].
Proof. destruct p; simpl; split; (done || lia). Qed.

(** [/^[^\s@]+@[^\s@]+\.[^\s@]+$/] accepts exactly the shape
    [local@domain.tld]. *)
Lemma test_email v : test re_email v = true ↔ email_shape v.
Proof.
  unfold re_email. cbn [seq]. rewrite test_anchored.
  unfold email_shape, email_part, plus. cbn [matches].
  setoid_rewrite (Forall_in_class _ _ _ in_class_email_part).
  setoid_rewrite nonempty_length.
  split.
  - intros (a & t & a1 & t1 & (p1 & -> & Hp1 & Hn1 & _ & ->)
            & a2 & t2 & (x & -> & ->%in_class_lit_one & ->)
            & a3 & t3 & (p2 & -> & Hp2 & Hn2 & _ & ->)
            & a4 & t4 & (y & -> & ->%in_class_lit_one & ->)
            & a5 & t5 & (p3 & -> & Hp3 & Hn3 & _ & ->) & -> & -> & ->).
    exists p1, p2, p3. by rewrite app_nil_r.
  - intros (p1 & p2 & p3 & -> & [Hn1 Hp1] & [Hn2 Hp2] & [Hn3 Hp3]).
    eexists _, []. eexists _, _. split; [exists p1; split_and!; done|].
    eexists _, _. split; [eexists; split_and!; [done|by apply in_class_lit_one|done]|].
    eexists _, _. split; [exists p2; split_and!; done|].
    eexists _, _. split; [eexists; split_and!; [done|by apply in_class_lit_one|done]|].
    eexists _, _. split; [exists p3; split_and!; [by rewrite app_nil_r|done..]|done].
Qed.

(** [/^\+\d{2}\d{1,2}\d{7,8}$/] accepts exactly [+], country code, area
    code and number. *)
Lemma test_phone v : test re_phone v = true ↔ phone_shape v.
Proof.
  unfold re_phone. cbn [seq]. rewrite test_anchored.
  unfold phone_shape. cbn [matches].
  setoid_rewrite (Forall_in_class _ _ _ in_class_digit).
  split.
  - intros (a & t & a1 & t1 & (x & -> & ->%in_class_lit_one & ->)
            & a2 & t2 & (p1 & -> & Hp1 & Hlo1 & Hhi1 & ->)
            & a3 & t3 & (p2 & -> & Hp2 & Hlo2 & Hhi2 & ->)
            & a4 & t4 & (p3 & -> & Hp3 & Hlo3 & Hhi3 & ->) & -> & -> & ->).
    exists p1, p2, p3. rewrite app_nil_r.
    specialize (Hhi1 _ eq_refl). specialize (Hhi2 _ eq_refl).
    specialize (Hhi3 _ eq_refl). split_and!; (done || lia).
  - intros (p1 & p2 & p3 & -> & Hp1 & Hp2 & Hp3 & Hn1 & Hn2 & Hn3).
    eexists _, []. eexists _, _.
    split; [eexists; split_and!; [done|by apply in_class_lit_one|done]|].
    eexists _, _. split.
    { exists p1. split_and!; [done|done|lia| |done]. intros h [= <-]. lia. }
    eexists _, _. split.
    { exists p2. split_and!; [done|done|lia| |done]. intros h [= <-]. lia. }
    eexists _, _. split; [|done].
    exists p3. split_and!; [by rewrite app_nil_r|done|lia| |done].
    intros h [= <-]. lia.
Qed.

(** Country code, area code and number together are 10 to 12 digits. *)
Lemma phone_shape_total v : phone_shape v ↔ plus_and_digits v.
Proof.
  unfold phone_shape, plus_and_digits. split.
  - intros (p1 & p2 & p3 & -> & Hp1 & Hp2 & Hp3 & Hn1 & Hn2 & Hn3).
    exists (p1 ++ p2 ++ p3). rewrite !Forall_app, !length_app.
    split_and!; (done || lia).
  - intros (ds & -> & Hds & Hlo & Hhi).
    set (n := if decide (length ds = 12) then 2 else 1).
    exists (take 2 ds), (take n (drop 2 ds)), (drop n (drop 2 ds)).
    rewrite !take_drop.
    pose proof (Forall_take _ 2 _ Hds).
    pose proof (Forall_drop _ 2 _ Hds) as Hd.
    pose proof (Forall_take _ n _ Hd).
    pose proof (Forall_drop _ n _ Hd).
    rewrite !length_take, !length_drop.
    subst n. split_and!; try done; case_decide; lia.
Qed.

(** [(?=.*c)]: a character of the class comes before any line
    terminator. *)
Lemma lookahead_spec cl (P : code_unit → Prop) at0 s :
  (∀ x, in_class cl x = true ↔ P x) →
  (∃ a t, matches (Cat (star Dot) (Char cl)) at0 s a t)
  ↔ ∃ p x t, s = p ++ x :: t ∧ single_line p ∧ P x.
Proof.
  intros HP. unfold star, single_line. cbn [matches].
  setoid_rewrite (Forall_in_class _ _ _ in_class_dot).
  setoid_rewrite HP. split.
  - intros (a & t & a1 & t1 & (p & -> & Hp & _) & x & -> & Hx & _). eauto 10.
  - intros (p & x & t & -> & Hp & Hx).
    exists false, t. eexists _, _. split; [|eauto].
    exists p. split_and!; [done|done|lia|done|done].
Qed.

Lemma lookahead_single_line cl (P : code_unit → Prop) at0 s :
  (∀ x, in_class cl x = true ↔ P x) →
  single_line s →
  (∃ a t, matches (Cat (star Dot) (Char cl)) at0 s a t) ↔ Exists P s.
Proof.
  intros HP Hs. rewrite (lookahead_spec _ _ _ _ HP), Exists_exists. split.
  - intros (p & x & t & -> & _ & Hx). exists x. split; [|done].
    apply elem_of_app. right. apply list_elem_of_here.
  - intros (x & (p & t & ->)%list_elem_of_split & Hx).
    exists p, x, t. split_and!; [done| |done].
    unfold single_line in *. by apply Forall_app in Hs as [? _].
Qed.

(** [/^(?=.*[a-z])(?=.*[A-Z])(?=.*\d).{8,}$/] accepts the passwords that
    follow the rule and hold no line terminator. *)
Lemma test_password v :
  test re_password v = true ↔ password_rule v ∧ single_line v.
Proof.
  unfold re_password. cbn [seq]. rewrite test_anchored.
  unfold password_rule. split.
  - intros (a & t & Hm). cbn [matches] in Hm.
    destruct Hm as (a1 & t1 & (Hlow & -> & ->) & a2 & t2 & (Hup & -> & ->)
      & a3 & t3 & (Hdig & -> & ->)
      & a4 & t4 & (p & Hv & Hp & Hlen & _ & ->) & -> & -> & ->).
    rewrite app_nil_r in Hv. subst p.
    apply (Forall_in_class _ _ _ in_class_dot) in Hp.
    fold (matches (Cat (star Dot) (Char (Class false [ARange (chr "a") (chr "z")]))))
      in Hlow.
    fold (matches (Cat (star Dot) (Char (Class false [ARange (chr "A") (chr "Z")]))))
      in Hup.
    fold (matches (Cat (star Dot) (Char (One ADigit)))) in Hdig.
    apply (lookahead_single_line _ _ _ _ in_class_lowercase Hp) in Hlow.
    apply (lookahead_single_line _ _ _ _ in_class_uppercase Hp) in Hup.
    apply (lookahead_single_line _ _ _ _ in_class_digit Hp) in Hdig.
    done.
  - intros [(Hlen & Hlow & Hup & Hdig) Hp].
    apply (lookahead_single_line _ _ true _ in_class_lowercase Hp) in Hlow.
    apply (lookahead_single_line _ _ true _ in_class_uppercase Hp) in Hup.
    apply (lookahead_single_line _ _ true _ in_class_digit Hp) in Hdig.
    eexists _, []. cbn [matches].
    eexists _, _. split; [split; [exact Hlow|done]|].
    eexists _, _. split; [split; [exact Hup|done]|].
    eexists _, _. split; [split; [exact Hdig|done]|].
    eexists _, _. split; [|done]. exists v.
    split_and!; [by rewrite app_nil_r| |done|done|done].
    by apply (Forall_in_class _ _ _ in_class_dot).
Qed.

(** ** The shape of a submit *)

Local Arguments test : simpl never.
Local Arguments js : simpl never.

Section Submit.
Context `{!NumericText}.
Variable SUCCESS : jsstring.

Lemma ToPrimitive_primitive v prim :
  ToPrimitive v = Some prim →
  match prim with JArray _ | JObject _ => False | _ => True end.
Proof.
  unfold ToPrimitive. destruct v; try (by intros [= <-]).
  all: by destruct (ToString _); intros [= <-].
Qed.

Lemma less_than_one_None v : less_than_one v = None ↔ ToPrimitive v = None.
Proof.
  unfold less_than_one, ToNumber.
  destruct (ToPrimitive v) as [prim|] eqn:Hp; simpl; [|done].
  apply ToPrimitive_primitive in Hp. by destruct prim.
Qed.

(** Induction on values, through the items of an array. *)
Lemma jsval_items_ind (P : jsval → Prop) :
  P JUndefined → P JNull → (∀ b, P (JBool b)) → (∀ n, P (JNumber n)) →
  (∀ s, P (JString s)) →
  (∀ items, Forall P items → P (JArray items)) →
  (∀ props, P (JObject props)) →
  ∀ v, P v.
Proof.
  intros Hu Hn Hb Hnum Hs Ha Ho. fix IH 1.
  intros [| |b|n|s|items|props];
    [exact Hu|exact Hn|apply Hb|apply Hnum|apply Hs| |apply Ho].
  apply Ha. induction items as [|x xs IHxs]; constructor; [apply IH|apply IHxs].
Qed.

Lemma ToString_array items :
  ToString (JArray items) = None
  ↔ ∃ item, item ∈ items ∧ ToString item = None.
Proof.
  cbn [ToString]. rewrite fmap_None.
  induction items as [|x xs IH].
  - split; [done|]. intros (item & Hin & _). by apply elem_of_nil in Hin.
  - rewrite bind_None. split.
    + intros [Hx|(p & _ & Hxs)].
      * exists x. split; [left|]. by destruct x.
      * apply fmap_None, IH in Hxs as (item & Hin & Hitem).
        exists item. split; [by right|done].
    + intros (item & Hin & Hitem). apply elem_of_cons in Hin as [->|Hin].
      * left. by destruct x.
      * destruct (match x with
                  | JUndefined | JNull => Some []
                  | _ => ToString x
                  end) as [p|] eqn:Hx; [|by left].
        right. exists p. split; [done|]. apply fmap_None, IH. by exists item.
Qed.

Lemma ToString_None v : ToString v = None ↔ no_primitive v.
Proof.
  split.
  - revert v. apply (jsval_items_ind (fun v => ToString v = None → no_primitive v));
      try done.
    + intros items IH (item & Hin & Hitem)%ToString_array.
      apply (no_primitive_array items item Hin).
      rewrite Forall_forall in IH. by apply IH.
    + intros props. cbn [ToString].
      destruct (own_property props (js "toString")) eqn:Hp; [|done].
      intros _. constructor. by rewrite Hp.
  - induction 1 as [props [x Hx]|items item Hin _ IH].
    + cbn [ToString]. by rewrite Hx.
    + apply ToString_array. by exists item.
Qed.

Lemma ToPrimitive_None v : ToPrimitive v = None ↔ no_primitive v.
Proof.
  rewrite <- ToString_None. unfold ToPrimitive.
  destruct v; try (by rewrite fmap_None); by split.
Qed.

(** The condition of the first [if] throws only in the comparison with
    1: both property reads are guarded by the truthiness of their
    object. *)
Lemma no_errors_None response : no_errors response = None ↔ throws response.
Proof.
  unfold no_errors, throws. split.
  - destruct (ToBoolean response) eqn:Hr; [|done].
    destruct response as [| |b|n|s|items|props]; try done.
    cbn [Get propname_key mbind option_bind].
    destruct (own_property props (js "errors")) as [errors|] eqn:He;
      cbn [default from_option id]; [|done].
    destruct (ToBoolean errors) eqn:Hte; [|done].
    destruct errors as [| |b|n|s|items|eprops]; try done.
    cbn [Get propname_key mbind option_bind].
    destruct (own_property eprops (js "length")) as [len|] eqn:Hl;
      cbn [default from_option id]; [|done].
    rewrite less_than_one_None, ToPrimitive_None.
    intros Hlen. by exists props, eprops, len.
  - intros (props & eprops & len & -> & He & Hl & Hlen).
    cbn [ToBoolean Get propname_key mbind option_bind]. rewrite He.
    cbn [default from_option id ToBoolean Get propname_key mbind option_bind].
    rewrite Hl. cbn [default from_option id].
    by rewrite less_than_one_None, ToPrimitive_None.
Qed.

Lemma has_fields_lookup fd :
  has_fields fd →
  ∃ firstName lastName email phoneNumber password confirmPassword,
    fd !! js "firstName" = Some firstName
    ∧ fd !! js "lastName" = Some lastName
    ∧ fd !! js "email" = Some email
    ∧ fd !! js "phoneNumber" = Some phoneNumber
    ∧ fd !! js "password" = Some password
    ∧ fd !! js "confirmPassword" = Some confirmPassword.
Proof.
  unfold has_fields, fields. rewrite !Forall_cons.
  intros ([? ?] & [? ?] & [? ?] & [? ?] & [? ?] & [? ?] & _). eauto 12.
Qed.

Lemma handleSubmit_run st net :
  has_fields (formData st) →
  run net (handleSubmit SUCCESS st) =
    PreventDefault :: Put (js "/api/users/register") (formData st) ::
    match net (js "/api/users/register") (formData st) with
    | Resolved response =>
        match no_errors response with
        | Some b =>
            (if b then success_events SUCCESS else [])
            ++ report (validations (formData st))
        | None => [Uncaught]
        end
    | Rejected => [Uncaught]
    end.
Proof.
  intros (f & l & e & p & pw & cpw & Hf & Hl & He & Hp & Hpw & Hcpw)
    %has_fields_lookup.
  unfold handleSubmit, validations, field.
  cbn [run seq_ preventDefault exec await_put].
  do 2 f_equal. destruct (net _ _) as [response|]; [|done].
  rewrite Hf, Hl, He, Hp, Hpw, Hcpw.
  destruct (no_errors response) as [b|]; [|done].
  unfold name_failure, email_failure, phone_failure, password_failure,
    test_, is_false, lt_, length_of, strict_ne.
  cbn [default fmap option_fmap option_map id].
  assert (Hdec : bool_decide (Some pw = Some cpw) = bool_decide (pw = cpw)).
  { apply bool_decide_ext. split; congruence. }
  rewrite Hdec. clear Hdec.
  destruct b;
    cbn [if_ seq_ setSuccessMessage setShowSuccess setTimeout exec skip run
         success_events app];
    repeat f_equal.
  all: destruct (length f <? 2); [by simpl|];
    destruct (test re_digit f); [by simpl|];
    destruct (length l <? 2); [by simpl|];
    destruct (test re_digit l); [by simpl|];
    destruct (test re_email e); [|by simpl];
    destruct (test re_phone p); [|by simpl];
    destruct (test re_password pw); [|by simpl];
    destruct (test re_password cpw); [|by simpl];
    destruct (bool_decide (pw = cpw)); by simpl.
Qed.

(** When the condition of the first [if] throws, the handler ends
    there; no property of the form has been read yet. *)
Lemma submit_thrown st net response :
  net (js "/api/users/register") (formData st) = Resolved response →
  no_errors response = None →
  run net (handleSubmit SUCCESS st)
  = [PreventDefault; Put (js "/api/users/register") (formData st); Uncaught].
Proof.
  intros Hnet Hthrow. unfold handleSubmit.
  cbn [seq_ preventDefault exec await_put run]. by rewrite Hnet, Hthrow.
Qed.

End Submit.

(** ** Well-formed forms *)

Lemma has_fields_form f l e p pw cpw : has_fields (form f l e p pw cpw).
Proof.
  unfold has_fields, fields, form.
  repeat (apply Forall_cons; split); [..|done];
    by (eexists; vm_compute; reflexivity).
Qed.

Lemma initial_has_fields : has_fields (formData initial).
Proof. apply (has_fields_form [] [] [] [] [] []). Qed.

(** [handleChange] keeps the six fields: a spread copies them and the
    computed key adds or overwrites one. *)
Lemma handleChange_has_fields st net name value :
  has_fields (formData st) →
  has_fields (formData (after st (run net (handleChange st name value)))).
Proof.
  unfold has_fields. simpl. intros H. eapply Forall_impl; [exact H|].
  clear H. intros k [v Hk].
  destruct (decide (name = k)) as [->|Hne].
  - rewrite lookup_insert_eq. by eexists.
  - rewrite lookup_insert_ne by done. by eexists.
Qed.

(** ** What a report is made of *)

Lemma report_validation_events vs :
  Forall (fun e => is_validation_event e = true) (report vs).
Proof.
  induction vs as [|v vs IH]; simpl; [constructor|].
  destruct (failure v) as [[key message]|]; repeat constructor. exact IH.
Qed.

Lemma report_passed passed rest :
  Forall passes passed → report (passed ++ rest) = (cleared <$> passed) ++ report rest.
Proof.
  induction 1 as [|v vs Hv _ IH]; [done|]. simpl. rewrite Hv. by rewrite IH.
Qed.

Lemma report_first_failure passed v rest key message :
  Forall passes passed → failure v = Some (key, message) →
  report (passed ++ v :: rest)
  = (cleared <$> passed) ++ [SetErrorMessage [(key, EMsg message)]].
Proof. intros Hp Hv. rewrite (report_passed _ _ Hp). simpl. by rewrite Hv. Qed.

Lemma report_all_pass vs : Forall passes vs → report vs = cleared <$> vs.
Proof.
  intros Hp. rewrite <- (app_nil_r vs) at 1.
  rewrite (report_passed _ _ Hp). apply app_nil_r.
Qed.

(** Either every validation passes or there is a first one that fails. *)
Lemma first_failure_split vs :
  Forall passes vs
  ∨ ∃ passed v rest key message,
      vs = passed ++ v :: rest ∧ Forall passes passed
      ∧ failure v = Some (key, message).
Proof.
  induction vs as [|v vs IH]; [left; constructor|].
  destruct (failure v) as [[key message]|] eqn:Hv.
  - right. exists [], v, vs, key, message. by repeat split.
  - destruct IH as [Hall|(passed & w & rest & key & message & -> & Hp & Hw)].
    + left. by constructor.
    + right. exists (v :: passed), w, rest, key, message.
      split_and!; [done|by constructor|done].
Qed.

Lemma reported_cleared vs : reported (cleared <$> vs) = [].
Proof.
  unfold reported. induction vs as [|v vs IH]; [done|].
  rewrite fmap_cons, bind_cons, IH, app_nil_r. unfold cleared.
  induction (clears v) as [|k ks IHk]; [done|]. simpl. exact IHk.
Qed.

Lemma reported_app es1 es2 : reported (es1 ++ es2) = reported es1 ++ reported es2.
Proof. apply bind_app. Qed.

Lemma report_nonempty v vs : report (v :: vs) ≠ [].
Proof. simpl. by destruct (failure v) as [[key message]|]. Qed.

Lemma validation_not_success e :
  is_validation_event e = true → is_success_event e = false.
Proof. by destruct e. Qed.

Lemma filter_success_report vs :
  filter (fun e => is_success_event e = true) (report vs) = [].
Proof.
  pose proof (report_validation_events vs) as H.
  induction H as [|e es He _ IH]; [done|].
  rewrite filter_cons, (validation_not_success e He). by rewrite IH.
Qed.

Lemma filter_validation_report vs :
  filter (fun e => is_validation_event e = true) (report vs) = report vs.
Proof.
  pose proof (report_validation_events vs) as H.
  induction H as [|e es He _ IH]; [done|].
  rewrite filter_cons, He. simpl. by rewrite IH.
Qed.

(** Validation touches [errorMessage] only. *)
Lemma after_validation_frame st events :
  Forall (fun e => is_validation_event e = true) events →
  successMessage (after st events) = successMessage st
  ∧ showSuccess (after st events) = showSuccess st
  ∧ formData (after st events) = formData st.
Proof.
  intros H. revert st. unfold after.
  induction H as [|e es He _ IH]; intros st; simpl; [done|].
  destruct (IH (update st e)) as (-> & -> & ->). by destruct e.
Qed.

Lemma after_cons st e es : after st (e :: es) = after (update st e) es.
Proof. done. Qed.

Lemma after_app st es1 es2 : after st (es1 ++ es2) = after (after st es1) es2.
Proof. apply foldl_app. Qed.

Section Claims.
Context `{!NumericText}.
Variable SUCCESS : jsstring.

Lemma no_errors_spec response :
  no_errors response = Some true ↔ indicates_no_errors response.
Proof.
  unfold no_errors, indicates_no_errors.
  destruct (ToBoolean response); [|split; [done|by intros [? _]]].
  destruct (Get response P_errors) as [errors|]; simpl.
  2: { split; [done|]. by intros (_ & errors & ? & _). }
  destruct (ToBoolean errors) eqn:He.
  2: { split; [done|]. intros (_ & errors' & [= <-] & He' & _). congruence. }
  destruct (Get errors P_length) as [len|] eqn:Hlen; simpl.
  2: { split; [done|].
       intros (_ & errors' & [= <-] & _ & len & ? & _). congruence. }
  split.
  - intros [= Hlt]. eauto 10.
  - intros (_ & errors' & [= <-] & _ & len' & Hlen' & Hlt).
    rewrite Hlen in Hlen'. injection Hlen' as <-. by rewrite Hlt.
Qed.

(** The [length] of an array or string is below 1 iff it is empty. *)
Lemma length_less_than_one n :
  less_than_one (JNumber (Finite (inject_Z (Z.of_nat n)))) = Some true
  ↔ n = 0.
Proof.
  unfold less_than_one. simpl.
  destruct (Qle_bool 1 (inject_Z (Z.of_nat n))) eqn:Hle; simpl.
  - apply Qle_bool_iff in Hle. unfold Qle in Hle. simpl in Hle.
    split; [done|]. lia.
  - split; [|done]. intros _. destruct n; [done|].
    assert (Qle_bool 1 (inject_Z (Z.of_nat (S n))) = true); [|congruence].
    apply Qle_bool_iff. unfold Qle. simpl. lia.
Qed.

Lemma no_errors_decided response :
  evaluates response →
  indicates_no_errors response ∧ no_errors response = Some true
  ∨ ¬ indicates_no_errors response ∧ no_errors response = Some false.
Proof.
  intros [[] Hb].
  - left. split; [by apply no_errors_spec|done].
  - right. split; [|done]. rewrite <- no_errors_spec. congruence.
Qed.

Lemma indicates_evaluates response :
  indicates_no_errors response → evaluates response.
Proof. intros Hi. apply no_errors_spec in Hi. by exists true. Qed.

(** The responses on which the condition is decided without the
    comparison, or by comparing the length of an array. *)
Lemma evaluates_plain response :
  response = JNull ∨ response = JUndefined
  ∨ Get response P_errors = Some JUndefined
  ∨ (∃ items, Get response P_errors = Some (JArray items)) →
  evaluates response.
Proof.
  unfold evaluates, no_errors.
  intros [->| [->| [Hu|(items & Ha)]]]; [by eexists..| |].
  - rewrite Hu. destruct (ToBoolean response); by eexists.
  - rewrite Ha. destruct (ToBoolean response); by eexists.
Qed.

(** C1, amended.  Every submit first issues the PUT to
    /api/users/register with the current form data, whatever the form
    holds and before anything of the validation.  When the promise resolves with a response on
    which the condition of the first [if] can be evaluated, the
    validations then run: what follows the request is the optional
    success notification and then the report of the validations, which
    is never empty.  The condition throws exactly on a response object
    whose [errors] is an object whose [length] has no primitive value;
    on such a response, and when the promise is rejected, the handler
    ends right after the request and no validation runs. *)
Theorem submit_sends_before_validating st net :
  has_fields (formData st) →
  ∃ rest,
    run net (handleSubmit SUCCESS st) =
      PreventDefault :: Put (js "/api/users/register") (formData st) :: rest
    ∧ (∀ response,
         net (js "/api/users/register") (formData st) = Resolved response →
         (evaluates response ↔ ¬ throws response)
         ∧ (evaluates response →
            ∃ notify,
              rest = notify ++ report (validations (formData st))
              ∧ Forall (fun e => is_validation_event e = false) notify
              ∧ Forall (fun e => is_validation_event e = true)
                  (report (validations (formData st)))
              ∧ report (validations (formData st)) ≠ [])
         ∧ (throws response → rest = [Uncaught]))
    ∧ (net (js "/api/users/register") (formData st) = Rejected →
       rest = [Uncaught]).
Proof.
  intros Hwf. rewrite (handleSubmit_run SUCCESS st net Hwf).
  eexists. split; [reflexivity|]. split.
  - intros response ->. split_and!.
    + rewrite <- no_errors_None. symmetry. apply not_eq_None_Some.
    + intros [b ->]. eexists. split; [reflexivity|]. split_and!.
      * destruct b; repeat constructor.
      * apply report_validation_events.
      * apply report_nonempty.
    + by intros ->%no_errors_None.
  - by intros ->.
Qed.

(** C2.  When the response is an object whose [errors] is the empty
    array, the success message is set, the success toast is shown and
    the navigation to /login is scheduled with a delay of 2000 ms,
    right after the request and before the validations. *)
Theorem empty_errors_notifies_and_navigates st net props :
  has_fields (formData st) →
  net (js "/api/users/register") (formData st) = Resolved (JObject props) →
  own_property props (js "errors") = Some (JArray []) →
  let events := run net (handleSubmit SUCCESS st) in
  events =
    [PreventDefault; Put (js "/api/users/register") (formData st);
     SetSuccessMessage SUCCESS; SetShowSuccess true;
     SetTimeout (Navigate (js "/login")) 2000]
    ++ report (validations (formData st))
  ∧ successMessage (after st events) = SUCCESS
  ∧ showSuccess (after st events) = true.
Proof.
  intros Hwf Hnet Herrors events. subst events.
  rewrite (handleSubmit_run SUCCESS st net Hwf), Hnet.
  assert (no_errors (JObject props) = Some true) as ->.
  { unfold no_errors. simpl. change (propname_key P_errors) with (js "errors").
    by rewrite Herrors. }
  split; [done|].
  change (PreventDefault :: _) with
    ([PreventDefault; Put (js "/api/users/register") (formData st);
      SetSuccessMessage SUCCESS; SetShowSuccess true;
      SetTimeout (Navigate (js "/login")) 2000]
     ++ report (validations (formData st))).
  rewrite after_app.
  destruct (after_validation_frame
              (after st [PreventDefault;
                         Put (js "/api/users/register") (formData st);
                         SetSuccessMessage SUCCESS; SetShowSuccess true;
                         SetTimeout (Navigate (js "/login")) 2000])
              _ (report_validation_events (validations (formData st))))
    as (-> & -> & _).
  done.
Qed.

Lemma submit_events st net response :
  has_fields (formData st) →
  net (js "/api/users/register") (formData st) = Resolved response →
  evaluates response →
  ∃ notify,
    run net (handleSubmit SUCCESS st) =
      [PreventDefault; Put (js "/api/users/register") (formData st)]
      ++ notify ++ report (validations (formData st))
    ∧ (indicates_no_errors response ∧ notify = success_events SUCCESS
       ∨ ¬ indicates_no_errors response ∧ notify = []).
Proof.
  intros Hwf Hnet Hev. rewrite (handleSubmit_run SUCCESS st net Hwf), Hnet.
  destruct (no_errors_decided response Hev) as [[Hi ->]|[Hi ->]];
    eexists; (split; [reflexivity|]); eauto.
Qed.

Lemma filter_success_submit u fd notify vs :
  notify = success_events SUCCESS ∨ notify = [] →
  filter (fun e => is_success_event e = true)
    ([PreventDefault; Put u fd] ++ notify ++ report vs) = notify.
Proof.
  intros Hn. rewrite !filter_app, filter_success_report, app_nil_r.
  by destruct Hn as [-> | ->].
Qed.

Lemma filter_validation_submit u fd notify vs :
  notify = success_events SUCCESS ∨ notify = [] →
  filter (fun e => is_validation_event e = true)
    ([PreventDefault; Put u fd] ++ notify ++ report vs) = report vs.
Proof.
  intros Hn. rewrite !filter_app, filter_validation_report.
  by destruct Hn as [-> | ->].
Qed.

Lemma after_submit st u fd notify vs :
  notify = success_events SUCCESS ∨ notify = [] →
  let st' := after st ([PreventDefault; Put u fd] ++ notify ++ report vs) in
  successMessage st' = (if decide (notify = []) then successMessage st else SUCCESS)
  ∧ showSuccess st' = (if decide (notify = []) then showSuccess st else true)
  ∧ formData st' = formData st
  ∧ errorMessage st' = errorMessage (after st (report vs)).
Proof.
  intros Hn st'. subst st'. rewrite !after_app.
  destruct (after_validation_frame
              (after (after st [PreventDefault; Put u fd]) notify) _
              (report_validation_events vs)) as (-> & -> & ->).
  assert (He : ∀ s1 s2 es, errorMessage s1 = errorMessage s2 →
            errorMessage (after s1 es) = errorMessage (after s2 es)).
  { intros s1 s2 es. revert s1 s2. unfold after.
    induction es as [|e es IH]; intros s1 s2 H12; [done|].
    simpl. apply IH. destruct e; simpl; congruence. }
  destruct Hn as [-> | ->]; (split_and!; [done|done|done|by apply He]).
Qed.

(** A submit leaves the form as it is, so the six fields stay. *)
Lemma handleSubmit_keeps_formData st net :
  has_fields (formData st) →
  formData (after st (run net (handleSubmit SUCCESS st))) = formData st.
Proof.
  intros Hwf.
  destruct (net (js "/api/users/register") (formData st)) as [response|] eqn:Hnet.
  - destruct (no_errors response) as [b|] eqn:Hb.
    2: { by rewrite (submit_thrown SUCCESS st net response Hnet Hb). }
    assert (Hev : evaluates response) by by exists b.
    destruct (submit_events st net response Hwf Hnet Hev)
      as (notify & -> & Hcases).
    assert (Hn : notify = success_events SUCCESS ∨ notify = [])
      by (destruct Hcases as [[_ ->]|[_ ->]]; auto).
    by destruct (after_submit st (js "/api/users/register") (formData st) notify
                   (validations (formData st)) Hn) as (_ & _ & -> & _).
  - by rewrite (handleSubmit_run SUCCESS st net Hwf), Hnet.
Qed.

(** C9.  The success notification is shown and the navigation to
    /login scheduled exactly when the response is truthy, its [errors]
    is truthy and the [length] of that is below 1.  Otherwise no
    success state is set and nothing is scheduled.  In particular for
    a null or undefined response, for a response without [errors] and
    for an [errors] array that is not empty: there the condition is
    evaluated, it does not hold, and the validations still run, as they
    do on every response on which the condition can be evaluated. *)
Theorem success_iff_indicates_no_errors st net response :
  has_fields (formData st) →
  net (js "/api/users/register") (formData st) = Resolved response →
  let events := run net (handleSubmit SUCCESS st) in
  let notified := filter (fun e => is_success_event e = true) events in
  (notified = success_events SUCCESS ↔ indicates_no_errors response)
  ∧ (indicates_no_errors response →
       successMessage (after st events) = SUCCESS
       ∧ showSuccess (after st events) = true)
  ∧ (¬ indicates_no_errors response →
       notified = []
       ∧ successMessage (after st events) = successMessage st
       ∧ showSuccess (after st events) = showSuccess st)
  ∧ (response = JNull ∨ response = JUndefined
     ∨ Get response P_errors = Some JUndefined
     ∨ (∃ e items, Get response P_errors = Some (JArray (e :: items))) →
     ¬ indicates_no_errors response ∧ evaluates response)
  ∧ (evaluates response →
       filter (fun e => is_validation_event e = true) events
       = report (validations (formData st))
       ∧ report (validations (formData st)) ≠ []).
Proof.
  intros Hwf Hnet events notified. subst notified events.
  assert (Hlisted :
    response = JNull ∨ response = JUndefined
    ∨ Get response P_errors = Some JUndefined
    ∨ (∃ e items, Get response P_errors = Some (JArray (e :: items))) →
    ¬ indicates_no_errors response ∧ evaluates response).
  { intros Hcase. split.
    - intros (Ht & errors & Hget & He & len & Hlen & Hlt).
      destruct Hcase as [->| [->| [Hu|(e & items & Ha)]]]; try done.
      + rewrite Hu in Hget. by injection Hget as <-.
      + rewrite Ha in Hget. injection Hget as <-. simpl in Hlen.
        injection Hlen as <-. by apply length_less_than_one in Hlt.
    - apply evaluates_plain.
      destruct Hcase as [?| [?| [?|(e & items & ?)]]]; eauto 6. }
  destruct (no_errors response) as [b|] eqn:Hb.
  - assert (Hev : evaluates response) by by exists b.
    destruct (submit_events st net response Hwf Hnet Hev)
      as (notify & -> & Hcases).
    assert (Hn : notify = success_events SUCCESS ∨ notify = [])
      by (destruct Hcases as [[_ ->]|[_ ->]]; auto).
    rewrite (filter_success_submit _ _ _ _ Hn),
      (filter_validation_submit _ _ _ _ Hn).
    destruct (after_submit st (js "/api/users/register") (formData st) notify
                (validations (formData st)) Hn) as (-> & -> & _ & _).
    split_and!.
    + destruct Hcases as [[Hi ->]|[Hi ->]]; [done|]. split; [done|tauto].
    + intros Hi. destruct Hcases as [[_ ->]|[? _]]; [done|tauto].
    + intros Hi. destruct Hcases as [[? _]|[_ ->]]; [tauto|done].
    + done.
    + intros _. split; [done|apply report_nonempty].
  - rewrite (submit_thrown SUCCESS st net response Hnet Hb).
    assert (Hni : ¬ indicates_no_errors response).
    { rewrite <- no_errors_spec. congruence. }
    split_and!; try done.
    intros [b' Hb']. congruence.
Qed.




(** *** The state after the validations *)

Lemma assign_cleared em keys :
  assign em (map (fun k => (k, EFalse)) keys) = clear_all keys em.
Proof.
  unfold assign, clear_all. revert em.
  induction keys as [|k ks IH]; intros em; [done|]. simpl. apply IH.
Qed.

Lemma clear_all_app ks1 ks2 em :
  clear_all (ks1 ++ ks2) em = clear_all ks2 (clear_all ks1 em).
Proof. apply foldl_app. Qed.

Lemma lookup_clear_all keys em k :
  clear_all keys em !! k = if decide (k ∈ keys) then Some EFalse else em !! k.
Proof.
  revert em. induction keys as [|k' ks IH]; intros em.
  - destruct (decide (k ∈ [])) as [Hin|_]; [|done].
    by apply not_elem_of_nil in Hin.
  - change (clear_all (k' :: ks) em) with (clear_all ks (<[k' := EFalse]> em)).
    rewrite IH. destruct (decide (k ∈ ks)) as [Hin|Hnin].
    + rewrite decide_True; [done|by right].
    + destruct (decide (k = k')) as [->|Hne].
      * rewrite lookup_insert_eq, decide_True; [done|by left].
      * rewrite lookup_insert_ne by done.
        rewrite decide_False; [done|]. by intros [?|?]%elem_of_cons.
Qed.

Lemma errorMessage_cleared st passed :
  errorMessage (after st (cleared <$> passed))
  = clear_all (concat (clears <$> passed)) (errorMessage st).
Proof.
  revert st. induction passed as [|v vs IH]; intros st; [done|].
  rewrite fmap_cons. change (after st (cleared v :: (cleared <$> vs)))
    with (after (update st (cleared v)) (cleared <$> vs)).
  rewrite IH. simpl. by rewrite assign_cleared, clear_all_app.
Qed.

Lemma assigned_cleared passed :
  assigned (cleared <$> passed) = concat (clears <$> passed).
Proof.
  unfold assigned. induction passed as [|v vs IH]; [done|].
  rewrite !fmap_cons, bind_cons, IH. simpl. f_equal.
  unfold cleared. induction (clears v) as [|k ks IHk]; [done|].
  simpl. by f_equal.
Qed.

(** A submit whose first failing validation is [v]. *)
Lemma submit_first_failure st net response passed v rest key message :
  has_fields (formData st) →
  net (js "/api/users/register") (formData st) = Resolved response →
  evaluates response →
  validations (formData st) = passed ++ v :: rest →
  Forall passes passed →
  failure v = Some (key, message) →
  let events := run net (handleSubmit SUCCESS st) in
  last events = Some (SetErrorMessage [(key, EMsg message)])
  ∧ reported events = [(key, message)]
  ∧ assigned events = concat (clears <$> passed) ++ [key]
  ∧ errorMessage (after st events)
    = <[key := EMsg message]>
        (clear_all (concat (clears <$> passed)) (errorMessage st)).
Proof.
  intros Hwf Hnet Hev Hvs Hp Hv events. subst events.
  destruct (submit_events st net response Hwf Hnet Hev)
    as (notify & -> & Hcases).
  assert (Hn : notify = success_events SUCCESS ∨ notify = [])
    by (destruct Hcases as [[_ ->]|[_ ->]]; auto).
  destruct (after_submit st (js "/api/users/register") (formData st) notify
              (validations (formData st)) Hn) as (_ & _ & _ & ->).
  rewrite Hvs, (report_first_failure _ _ _ _ _ Hp Hv).
  split_and!.
  - rewrite !app_assoc. apply last_snoc.
  - rewrite !reported_app, reported_cleared. by destruct Hn as [-> | ->].
  - unfold assigned. rewrite !bind_app. fold (assigned (cleared <$> passed)).
    rewrite assigned_cleared. by destruct Hn as [-> | ->].
  - rewrite after_app. simpl. by rewrite errorMessage_cleared.
Qed.

(** A submit in which every validation passes. *)
Lemma submit_all_pass st net response :
  has_fields (formData st) →
  net (js "/api/users/register") (formData st) = Resolved response →
  evaluates response →
  Forall passes (validations (formData st)) →
  let events := run net (handleSubmit SUCCESS st) in
  reported events = []
  ∧ assigned events = error_keys
  ∧ errorMessage (after st events) = clear_all error_keys (errorMessage st).
Proof.
  intros Hwf Hnet Hev Hp events. subst events.
  destruct (submit_events st net response Hwf Hnet Hev)
    as (notify & -> & Hcases).
  assert (Hn : notify = success_events SUCCESS ∨ notify = [])
    by (destruct Hcases as [[_ ->]|[_ ->]]; auto).
  destruct (after_submit st (js "/api/users/register") (formData st) notify
              (validations (formData st)) Hn) as (_ & _ & _ & ->).
  rewrite (report_all_pass _ Hp).
  split_and!.
  - rewrite !reported_app, reported_cleared. by destruct Hn as [-> | ->].
  - unfold assigned. rewrite !bind_app.
    fold (assigned (cleared <$> validations (formData st))).
    rewrite assigned_cleared. by destruct Hn as [-> | ->].
  - by rewrite errorMessage_cleared.
Qed.


(** *** The rules and the failures *)

Lemma name_failure_invalid v :
  name_invalid v → name_failure v = Some (name_message v).
Proof.
  unfold name_invalid, name_too_short, name_failure, name_message.
  intros Hv. destruct (Nat.ltb_spec (length v) 2) as [Hlt|Hge]; [done|].
  destruct Hv as [Hv|Hv]; [lia|]. apply test_digit in Hv. by rewrite Hv.
Qed.

Lemma name_failure_valid v : ¬ name_invalid v → name_failure v = None.
Proof.
  unfold name_invalid, name_too_short, name_failure. intros Hv.
  destruct (Nat.ltb_spec (length v) 2) as [Hlt|Hge]; [tauto|].
  destruct (test re_digit v) eqn:Hd; [|done].
  apply test_digit in Hd. tauto.
Qed.

Lemma name_message_cases v :
  name_invalid v →
  (name_too_short v → name_message v = js "Must be at least 2 characters long")
  ∧ (¬ name_too_short v →
       name_has_digit v
       ∧ name_message v = js "The field cannot contain numbers").
Proof.
  unfold name_invalid, name_too_short, name_message. intros Hv.
  destruct (Nat.ltb_spec (length v) 2) as [Hlt|Hge].
  - split; [done|]. intros ?. lia.
  - split; [intros ?; lia|]. intros _. split; [|done].
    destruct Hv as [?|?]; [lia|done].
Qed.

Lemma email_failure_accepts v : email_shape v → email_failure v = None.
Proof. unfold email_failure. by intros ->%test_email. Qed.

Lemma email_failure_rejects v :
  ¬ email_shape v → email_failure v = Some (js "Incorrect email adress").
Proof.
  unfold email_failure. intros Hv. destruct (test re_email v) eqn:Ht; [|done].
  by apply test_email in Ht.
Qed.

Lemma phone_failure_accepts v : phone_shape v → phone_failure v = None.
Proof. unfold phone_failure. by intros ->%test_phone. Qed.

Lemma phone_failure_rejects v :
  ¬ phone_shape v →
  phone_failure v
  = Some (js "Incorrect phone number format e.g.(+36302748465)").
Proof.
  unfold phone_failure. intros Hv. destruct (test re_phone v) eqn:Ht; [|done].
  by apply test_phone in Ht.
Qed.

Lemma test_password_false v :
  ¬ (password_rule v ∧ single_line v) → test re_password v = false.
Proof.
  intros Hv. destruct (test re_password v) eqn:Ht; [|done].
  by apply test_password in Ht.
Qed.

Lemma validations_well_keyed fd : Forall well_keyed (validations fd).
Proof.
  unfold validations, well_keyed.
  repeat (apply Forall_cons; split); simpl.
  - intros key m. destruct (name_failure _); [|done]. intros [= <- _]. by left.
  - intros key m. destruct (name_failure _); [|done]. intros [= <- _]. by left.
  - intros key m. destruct (email_failure _); [|done]. intros [= <- _]. by left.
  - intros key m. destruct (phone_failure _); [|done]. intros [= <- _]. by left.
  - intros key m. unfold password_failure.
    repeat case_match; try done; intros [= <- _];
      [by left|right; by left|by left].
  - done.
Qed.

(** A report leaves alone the entries its validations are not in
    charge of. *)
Lemma report_frame st vs k :
  Forall well_keyed vs →
  k ∉ concat (clears <$> vs) →
  errorMessage (after st (report vs)) !! k = errorMessage st !! k.
Proof.
  intros Hwk. revert st. induction Hwk as [|v vs Hv _ IH]; intros st Hk; [done|].
  rewrite fmap_cons in Hk. simpl in Hk. apply not_elem_of_app in Hk as [Hk1 Hk2].
  simpl. destruct (failure v) as [[key message]|] eqn:Hf.
  - simpl. apply lookup_insert_ne. intros <-. apply Hk1. by eapply Hv.
  - change (after st (cleared v :: report vs))
      with (after (update st (cleared v)) (report vs)).
    rewrite (IH _ Hk2). simpl. rewrite assign_cleared, lookup_clear_all.
    by rewrite decide_False.
Qed.

(** Everything a submit does to [errorMessage] is in the report. *)
Lemma submit_summary st net response :
  has_fields (formData st) →
  net (js "/api/users/register") (formData st) = Resolved response →
  evaluates response →
  let events := run net (handleSubmit SUCCESS st) in
  let rep := report (validations (formData st)) in
  filter (fun e => is_validation_event e = true) events = rep
  ∧ last events = last rep
  ∧ reported events = reported rep
  ∧ assigned events = assigned rep
  ∧ errorMessage (after st events) = errorMessage (after st rep).
Proof.
  intros Hwf Hnet Hev events rep. subst events rep.
  destruct (submit_events st net response Hwf Hnet Hev)
    as (notify & -> & Hcases).
  assert (Hn : notify = success_events SUCCESS ∨ notify = [])
    by (destruct Hcases as [[_ ->]|[_ ->]]; auto).
  destruct (after_submit st (js "/api/users/register") (formData st) notify
              (validations (formData st)) Hn) as (_ & _ & _ & ->).
  rewrite (filter_validation_submit _ _ _ _ Hn).
  split_and!; [done| | | |done].
  - rewrite !app_assoc.
    destruct (report (validations (formData st))) as [|e es] eqn:Hr using rev_ind.
    + by apply report_nonempty in Hr.
    + by rewrite !app_assoc, !last_snoc.
  - rewrite !reported_app. by destruct Hn as [-> | ->].
  - unfold assigned. rewrite !bind_app. by destruct Hn as [-> | ->].
Qed.


Lemma name_failure_Some v m :
  name_failure v = Some m → name_invalid v ∧ m = name_message v.
Proof.
  unfold name_failure, name_message, name_invalid, name_too_short.
  destruct (Nat.ltb_spec (length v) 2) as [Hlt|Hge].
  - intros [= <-]. auto.
  - destruct (test re_digit v) eqn:Hd; [|done]. intros [= <-].
    apply test_digit in Hd. auto.
Qed.

Lemma name_failure_None v : name_failure v = None → ¬ name_invalid v.
Proof.
  intros Hf Hv. apply name_failure_invalid in Hv. congruence.
Qed.

(** C4.  When the first name or the last name is shorter than 2 or
    holds a digit, the submit sets the entry of that name (of the first
    name when both are at fault) to 'Must be at least 2 characters
    long' if the value is too short and to 'The field cannot contain
    numbers' if it holds a digit, and returns: it is the last thing the
    handler does, no other message is reported and no entry of a later
    validation is assigned.
    This is for a submit that reaches the validations: the promise is
    resolved and the condition of the first [if] does not throw. *)
Theorem invalid_name_is_reported st net response :
  has_fields (formData st) →
  net (js "/api/users/register") (formData st) = Resolved response →
  evaluates response →
  let firstName := field (formData st) "firstName" in
  let lastName := field (formData st) "lastName" in
  let events := run net (handleSubmit SUCCESS st) in
  name_invalid firstName ∨ name_invalid lastName →
  ∃ key v,
    (key = js "firstNameError" ∧ v = firstName
     ∨ key = js "lastNameError" ∧ v = lastName ∧ ¬ name_invalid firstName)
    ∧ name_invalid v
    ∧ (name_too_short v →
         name_message v = js "Must be at least 2 characters long")
    ∧ (¬ name_too_short v →
         name_has_digit v
         ∧ name_message v = js "The field cannot contain numbers")
    ∧ reported events = [(key, name_message v)]
    ∧ errorMessage (after st events) !! key = Some (EMsg (name_message v))
    ∧ last events = Some (SetErrorMessage [(key, EMsg (name_message v))])
    ∧ ∀ k, k ∈ assigned events →
           k = js "firstNameError" ∨ k = js "lastNameError".
Proof.
  intros Hwf Hnet Hev firstName lastName events Hinv.
  destruct (submit_summary st net response Hwf Hnet Hev)
    as (_ & Hlast & Hrep & Hassigned & Hem).
  fold events in Hlast, Hrep, Hassigned, Hem.
  rewrite Hlast, Hrep, Hassigned, Hem. clear Hlast Hrep Hassigned Hem.
  unfold validations. fold firstName lastName.
  destruct (name_failure firstName) as [m|] eqn:Hf.
  - apply name_failure_Some in Hf as [Hv ->].
    destruct (name_message_cases _ Hv) as [Hshort Hdigit].
    exists (js "firstNameError"), firstName.
    cbn [report failure fmap option_fmap option_map].
    split_and!; try done; [by left|apply lookup_insert_eq|].
    intros k ?%list_elem_of_singleton. by left.
  - apply name_failure_None in Hf as Hvalid.
    destruct Hinv as [?|Hv]; [done|].
    destruct (name_message_cases _ Hv) as [Hshort Hdigit].
    exists (js "lastNameError"), lastName.
    cbn [report failure fmap option_fmap option_map].
    rewrite (name_failure_invalid _ Hv).
    cbn [report failure fmap option_fmap option_map].
    split_and!; try done; [by right|apply lookup_insert_eq|].
    intros k [->|?%list_elem_of_singleton]%elem_of_cons; auto.
Qed.


Lemma report_passed_lookup st passed rest k :
  Forall passes passed →
  Forall well_keyed rest →
  k ∈ concat (clears <$> passed) →
  k ∉ concat (clears <$> rest) →
  errorMessage (after st (report (passed ++ rest))) !! k = Some EFalse.
Proof.
  intros Hp Hwk Hin Hnin.
  rewrite (report_passed _ _ Hp), after_app, (report_frame _ _ _ Hwk Hnin).
  rewrite errorMessage_cleared, lookup_clear_all. by rewrite decide_True.
Qed.

(** C5.  Once the name fields pass, the email is accepted exactly when
    it has the shape local@domain.tld (three nonempty parts free of
    whitespace and of '@'): then its entry is cleared and the phone
    check follows; otherwise the entry is set to 'Incorrect email
    adress' and the handler returns.
    This is for a submit that reaches the validations: the promise is
    resolved and the condition of the first [if] does not throw. *)
Theorem email_accepted_iff_shape st net response :
  has_fields (formData st) →
  net (js "/api/users/register") (formData st) = Resolved response →
  evaluates response →
  reaches_email (formData st) →
  let email := field (formData st) "email" in
  let events := run net (handleSubmit SUCCESS st) in
  let validating := filter (fun e => is_validation_event e = true) events in
  (errorMessage (after st events) !! js "emailError" = Some EFalse
   ↔ email_shape email)
  ∧ (email_shape email →
       ∃ later,
         validating
         = [SetErrorMessage [(js "firstNameError", EFalse)];
            SetErrorMessage [(js "lastNameError", EFalse)];
            SetErrorMessage [(js "emailError", EFalse)]] ++ later
         ∧ hd_error (assigned later) = Some (js "phoneNumberError"))
  ∧ (¬ email_shape email →
       validating
       = [SetErrorMessage [(js "firstNameError", EFalse)];
          SetErrorMessage [(js "lastNameError", EFalse)];
          SetErrorMessage [(js "emailError", EMsg (js "Incorrect email adress"))]]
       ∧ last events
         = Some (SetErrorMessage
                   [(js "emailError", EMsg (js "Incorrect email adress"))])
       ∧ reported events = [(js "emailError", js "Incorrect email adress")]
       ∧ errorMessage (after st events) !! js "emailError"
         = Some (EMsg (js "Incorrect email adress"))).
Proof.
  intros Hwf Hnet Hev [Hfirst Hlast] email events validating.
  destruct (submit_summary st net response Hwf Hnet Hev)
    as (Hval & Hlst & Hrep & _ & Hem).
  fold events in Hval, Hlst, Hrep, Hem. subst validating.
  rewrite Hval, Hlst, Hrep, Hem. clear Hval Hlst Hrep Hem.
  pose proof (validations_well_keyed (formData st)) as Hwk.
  unfold validations in *. fold email in Hwk |- *.
  rewrite (name_failure_valid _ Hfirst), (name_failure_valid _ Hlast) in *.
  assert (Hyes : email_shape email →
    email_failure email = None) by apply email_failure_accepts.
  assert (Hno : ¬ email_shape email →
    email_failure email = Some (js "Incorrect email adress"))
    by apply email_failure_rejects.
  destruct (email_failure email) as [m|] eqn:Hf.
  - assert (¬ email_shape email) as Hshape by (intros ?%Hyes; done).
    specialize (Hno Hshape) as [= ->].
    cbn [report failure fmap option_fmap option_map].
    match goal with
    | |- (?entry = _ ↔ _) ∧ _ =>
        assert (Hentry : entry = Some (EMsg (js "Incorrect email adress")))
          by apply lookup_insert_eq
    end.
    split_and!.
    + rewrite Hentry. split; [done|]. intros Hs. by destruct Hshape.
    + intros Hs. by destruct Hshape.
    + intros _. by split_and!.
  - assert (email_shape email) as Hshape.
    { destruct (test re_email email) eqn:Ht; [by apply test_email|].
      unfold email_failure in Hf. by rewrite Ht in Hf. }
    cbn [report failure fmap option_fmap option_map].
    split_and!.
    + split; [done|]. intros _.
      do 3 apply Forall_cons in Hwk as [_ Hwk].
      rewrite !after_cons, (report_frame _ _ _ Hwk).
      * simpl. apply lookup_insert_eq.
      * cbn [concat fmap list_fmap clears app]. by_computation.
    + intros _. eexists. split; [reflexivity|].
      cbn [report failure]. by destruct (phone_failure _).
    + intros Hn. by destruct Hn.
Qed.


(** C6.  Once the names and the email pass, the phone number is
    accepted exactly when it is '+', a 2-digit country code, a 1-2
    digit area code and a 7-8 digit number, that is '+' and 10 to 12
    digits: then its entry is cleared and the password check follows;
    otherwise the entry is set to 'Incorrect phone number format
    e.g.(+36302748465)' and the handler returns.
    This is for a submit that reaches the validations: the promise is
    resolved and the condition of the first [if] does not throw. *)
Theorem phone_accepted_iff_shape st net response :
  has_fields (formData st) →
  net (js "/api/users/register") (formData st) = Resolved response →
  evaluates response →
  reaches_phone (formData st) →
  let phoneNumber := field (formData st) "phoneNumber" in
  let events := run net (handleSubmit SUCCESS st) in
  let validating := filter (fun e => is_validation_event e = true) events in
  let message := js "Incorrect phone number format e.g.(+36302748465)" in
  (phone_shape phoneNumber ↔ plus_and_digits phoneNumber)
  ∧ (errorMessage (after st events) !! js "phoneNumberError" = Some EFalse
     ↔ phone_shape phoneNumber)
  ∧ (phone_shape phoneNumber →
       ∃ later,
         validating
         = [SetErrorMessage [(js "firstNameError", EFalse)];
            SetErrorMessage [(js "lastNameError", EFalse)];
            SetErrorMessage [(js "emailError", EFalse)];
            SetErrorMessage [(js "phoneNumberError", EFalse)]] ++ later
         ∧ later ≠ []
         ∧ ∀ k, k ∈ assigned later →
                k = js "passwordError" ∨ k = js "confirmPasswordError")
  ∧ (¬ phone_shape phoneNumber →
       validating
       = [SetErrorMessage [(js "firstNameError", EFalse)];
          SetErrorMessage [(js "lastNameError", EFalse)];
          SetErrorMessage [(js "emailError", EFalse)];
          SetErrorMessage [(js "phoneNumberError", EMsg message)]]
       ∧ last events
         = Some (SetErrorMessage [(js "phoneNumberError", EMsg message)])
       ∧ reported events = [(js "phoneNumberError", message)]
       ∧ errorMessage (after st events) !! js "phoneNumberError"
         = Some (EMsg message)).
Proof.
  intros Hwf Hnet Hev [[Hfirst Hlast] Hemail] phoneNumber events validating message.
  destruct (submit_summary st net response Hwf Hnet Hev)
    as (Hval & Hlst & Hrep & _ & Hem).
  fold events in Hval, Hlst, Hrep, Hem. subst validating.
  rewrite Hval, Hlst, Hrep, Hem. clear Hval Hlst Hrep Hem.
  split; [apply phone_shape_total|].
  pose proof (validations_well_keyed (formData st)) as Hwk.
  unfold validations in *. fold phoneNumber in Hwk |- *.
  rewrite (name_failure_valid _ Hfirst), (name_failure_valid _ Hlast),
    (email_failure_accepts _ Hemail) in *.
  assert (Hyes : phone_shape phoneNumber → phone_failure phoneNumber = None)
    by apply phone_failure_accepts.
  assert (Hno : ¬ phone_shape phoneNumber →
            phone_failure phoneNumber = Some message)
    by apply phone_failure_rejects.
  destruct (phone_failure phoneNumber) as [m|] eqn:Hf.
  - assert (¬ phone_shape phoneNumber) as Hshape by (intros ?%Hyes; done).
    specialize (Hno Hshape) as [= ->].
    cbn [report failure fmap option_fmap option_map].
    match goal with
    | |- (?entry = _ ↔ _) ∧ _ =>
        assert (Hentry : entry = Some (EMsg message))
          by apply lookup_insert_eq
    end.
    split_and!.
    + rewrite Hentry. split; [done|]. intros Hs. by destruct Hshape.
    + intros Hs. by destruct Hshape.
    + intros _. by split_and!.
  - assert (phone_shape phoneNumber) as Hshape.
    { destruct (test re_phone phoneNumber) eqn:Ht; [by apply test_phone|].
      unfold phone_failure in Hf. by rewrite Ht in Hf. }
    cbn [report failure fmap option_fmap option_map].
    do 4 apply Forall_cons in Hwk as [_ Hwk].
    split_and!.
    + split; [done|]. intros _.
      rewrite !after_cons, (report_frame _ _ _ Hwk).
      * simpl. apply lookup_insert_eq.
      * cbn [concat fmap list_fmap clears app]. by_computation.
    + intros _. eexists. split; [reflexivity|].
      apply Forall_cons in Hwk as [Hwk _]. unfold well_keyed in Hwk.
      cbn [report failure clears] in *.
      destruct (password_failure _ _) as [[key m]|].
      * split; [done|]. intros k ->%list_elem_of_singleton.
        specialize (Hwk _ _ eq_refl).
        apply elem_of_cons in Hwk as [?|?%list_elem_of_singleton]; auto.
      * split; [done|]. simpl.
        intros k [->|?%list_elem_of_singleton]%elem_of_cons; auto.
    + intros Hn. by destruct Hn.
Qed.


Lemma test_password_accepted v :
  test re_password v = true ↔ password_accepted v.
Proof. apply test_password. Qed.

Lemma test_password_rejected v :
  test re_password v = false ↔ ¬ password_accepted v.
Proof.
  rewrite <- test_password_accepted. by destruct (test re_password v).
Qed.

(** C7, amended.  Once the names, the email and the phone number pass:
    a password that is not accepted (at least 8 characters with a
    lowercase letter a-z, an uppercase letter A-Z and a digit 0-9, and
    no line terminator) sets passwordError and the handler returns;
    else a confirmPassword that is not accepted sets
    confirmPasswordError and the handler returns; else a password that
    differs from confirmPassword sets passwordError to 'The passwords
    don't match' and the handler returns; else both entries are
    cleared to false.
    This is for a submit that reaches the validations: the promise is
    resolved and the condition of the first [if] does not throw. *)
Theorem password_check_outcomes st net response :
  has_fields (formData st) →
  net (js "/api/users/register") (formData st) = Resolved response →
  evaluates response →
  reaches_password (formData st) →
  let password := field (formData st) "password" in
  let confirmPassword := field (formData st) "confirmPassword" in
  let events := run net (handleSubmit SUCCESS st) in
  let entries := errorMessage (after st events) in
  let weak := js "Min. 8 characters, upper and lowercase" in
  let mismatch := js "The passwords don't match" in
  (¬ password_accepted password →
     last events = Some (SetErrorMessage [(js "passwordError", EMsg weak)])
     ∧ entries !! js "passwordError" = Some (EMsg weak))
  ∧ (password_accepted password → ¬ password_accepted confirmPassword →
     last events
     = Some (SetErrorMessage [(js "confirmPasswordError", EMsg weak)])
     ∧ entries !! js "confirmPasswordError" = Some (EMsg weak))
  ∧ (password_accepted password → password_accepted confirmPassword →
     password ≠ confirmPassword →
     last events
     = Some (SetErrorMessage [(js "passwordError", EMsg mismatch)])
     ∧ entries !! js "passwordError" = Some (EMsg mismatch))
  ∧ (password_accepted password → password_accepted confirmPassword →
     password = confirmPassword →
     last events
     = Some (SetErrorMessage [(js "passwordError", EFalse);
                              (js "confirmPasswordError", EFalse)])
     ∧ entries !! js "passwordError" = Some EFalse
     ∧ entries !! js "confirmPasswordError" = Some EFalse).
Proof.
  intros Hwf Hnet Hev [[[Hfirst Hlast] Hemail] Hphone].
  intros password confirmPassword events entries weak mismatch.
  destruct (submit_summary st net response Hwf Hnet Hev) as (_ & Hlst & _ & _ & Hem).
  fold events in Hlst, Hem. subst entries.
  rewrite Hlst, Hem. clear Hlst Hem.
  unfold validations. fold password confirmPassword.
  rewrite (name_failure_valid _ Hfirst), (name_failure_valid _ Hlast),
    (email_failure_accepts _ Hemail), (phone_failure_accepts _ Hphone).
  unfold password_failure.
  split_and!.
  - intros ->%test_password_rejected.
    cbn [report failure fmap option_fmap option_map negb].
    split; [done|]. apply lookup_insert_eq.
  - intros ->%test_password_accepted ->%test_password_rejected.
    cbn [report failure fmap option_fmap option_map negb].
    split; [done|]. apply lookup_insert_eq.
  - intros ->%test_password_accepted ->%test_password_accepted Hne.
    rewrite bool_decide_eq_false_2 by done.
    cbn [report failure fmap option_fmap option_map negb].
    split; [done|]. apply lookup_insert_eq.
  - intros ->%test_password_accepted ->%test_password_accepted Heq.
    rewrite bool_decide_eq_true_2 by done.
    cbn [report failure fmap option_fmap option_map negb].
    split_and!; [done| |apply lookup_insert_eq].
    simpl. rewrite lookup_insert_ne by by_computation. apply lookup_insert_eq.
Qed.

(** C10, amended.  In one submit, every validation (first name, last
    name, email, phone, password/confirm) that is reached and passes
    resets its entries to false; passwordError and confirmPasswordError
    belong to the one validation password/confirm and are reset only
    when it passes as a whole.  The first validation that fails sets
    the entry it reports, and every entry neither reset nor reported
    keeps the value it had before the call.  After a submit in which
    every validation passes, all six entries are false.
    This is for a submit that reaches the validations: the promise is
    resolved and the condition of the first [if] does not throw. *)
Theorem passing_validations_reset_entries st net response :
  has_fields (formData st) →
  net (js "/api/users/register") (formData st) = Resolved response →
  evaluates response →
  let events := run net (handleSubmit SUCCESS st) in
  let entries := errorMessage (after st events) in
  clears <$> validations (formData st)
    = [[js "firstNameError"]; [js "lastNameError"]; [js "emailError"];
       [js "phoneNumberError"];
       [js "passwordError"; js "confirmPasswordError"]]
  ∧ (∀ passed v rest key message,
       validations (formData st) = passed ++ v :: rest →
       Forall passes passed →
       failure v = Some (key, message) →
       (∀ k, k ∈ concat (clears <$> passed) → entries !! k = Some EFalse)
       ∧ entries !! key = Some (EMsg message)
       ∧ (∀ k, k ∉ concat (clears <$> passed) → k ≠ key →
               entries !! k = errorMessage st !! k))
  ∧ (Forall passes (validations (formData st)) →
       ∀ k, k ∈ error_keys → entries !! k = Some EFalse).
Proof.
  intros Hwf Hnet Hev events entries. subst entries events.
  split_and!; [done| |].
  - intros passed v rest key message Hvs Hp Hv.
    destruct (submit_first_failure st net response passed v rest key message
                Hwf Hnet Hev Hvs Hp Hv) as (_ & _ & _ & ->).
    assert (Hkey : key ∉ concat (clears <$> passed)).
    { assert (Hnd : NoDup (concat (clears <$> validations (formData st))))
        by (cbn [validations concat fmap list_fmap clears app]; by_computation).
      pose proof (validations_well_keyed (formData st)) as Hwk.
      rewrite Hvs in Hnd, Hwk.
      rewrite fmap_app, concat_app, fmap_cons in Hnd. simpl in Hnd.
      apply NoDup_app in Hnd as (_ & Hdisj & _).
      apply Forall_app in Hwk as [_ [Hwk _]%Forall_cons].
      intros Hin. apply (Hdisj _ Hin), elem_of_app. left. by eapply Hwk. }
    split_and!.
    + intros k Hk. rewrite lookup_insert_ne by congruence.
      rewrite lookup_clear_all. by rewrite decide_True.
    + apply lookup_insert_eq.
    + intros k Hk Hne. rewrite lookup_insert_ne by done.
      rewrite lookup_clear_all. by rewrite decide_False.
  - intros Hp k Hk.
    destruct (submit_all_pass st net response Hwf Hnet Hev Hp) as (_ & _ & ->).
    rewrite lookup_clear_all. by rewrite decide_True.
Qed.

End Claims.

(** ** Typing into a field *)

(** C8.  [handleChange] writes the value into [formData] at the given
    name and does nothing else: every other field keeps its value, and
    [errorMessage], [successMessage] and [showSuccess] are untouched. *)
Theorem handleChange_writes_one_field st net name value :
  let events := run net (handleChange st name value) in
  let st' := after st events in
  events = [SetFormData (<[name := value]> (formData st))]
  ∧ formData st' !! name = Some value
  ∧ (∀ k, k ≠ name → formData st' !! k = formData st !! k)
  ∧ errorMessage st' = errorMessage st
  ∧ successMessage st' = successMessage st
  ∧ showSuccess st' = showSuccess st.
Proof.
  simpl. split_and!; try done.
  - apply lookup_insert_eq.
  - intros k Hk. by apply lookup_insert_ne.
Qed.

(** Only a submit assigns entries of [errorMessage]. *)
Lemma handleChange_assigns_nothing st net name value :
  assigned (run net (handleChange st name value)) = [].
Proof. done. Qed.

(** ** The theorems on concrete forms *)

Lemma submit_sends_before_validating_witness :
  has_fields (formData initial)
  ∧ ∃ rest,
      run (answers JNull) (@handleSubmit plain_text (js "Welcome") initial)
      = PreventDefault :: Put (js "/api/users/register") (formData initial) :: rest
      ∧ rest ≠ [].
Proof.
  assert (Hwf : has_fields (formData initial))
    by (unfold has_fields; by_computation).
  split; [exact Hwf|].
  destruct (@submit_sends_before_validating plain_text (js "Welcome") initial
              (answers JNull) Hwf) as (rest & Hrun & Hrest).
  exists rest. split; [exact Hrun|].
  destruct Hrest as [Hresolved _].
  destruct (Hresolved JNull eq_refl) as (_ & Hvalidates & _).
  destruct (Hvalidates (ex_intro _ false eq_refl))
    as (notify & -> & _ & _ & Hne).
  intros [_ ?]%app_eq_nil. contradiction.
Defined.

(** C1 as it was worded fails on a response whose [errors.length]
    cannot be converted to a number: the request is sent, the
    comparison with 1 throws, and although the form is empty no
    validation runs and no entry of errorMessage is set. *)
Lemma validation_skipped_when_condition_throws :
  let response :=
    JObject [(js "errors",
              JObject [(js "length", JObject [(js "toString", JNull)])])] in
  let events :=
    run (answers response) (@handleSubmit plain_text (js "Welcome") initial) in
  has_fields (formData initial)
  ∧ throws response
  ∧ events
    = [PreventDefault; Put (js "/api/users/register") (formData initial);
       Uncaught]
  ∧ filter (fun e => is_validation_event e = true) events = []
  ∧ report (validations (formData initial))
    = [SetErrorMessage
         [(js "firstNameError", EMsg (js "Must be at least 2 characters long"))]]
  ∧ errorMessage (after initial events) = errorMessage initial.
Proof.
  intros response events. split_and!; try reflexivity.
  - unfold has_fields. by_computation.
  - eexists _, _, _. split_and!; try reflexivity.
    constructor. by eexists.
Qed.

Lemma ada_passes :
  reaches_password ada
  ∧ password_accepted (field ada "password")
  ∧ password_accepted (field ada "confirmPassword").
Proof.
  unfold reaches_password, reaches_phone, reaches_email. split_and!.
  - by apply name_failure_None.
  - by apply name_failure_None.
  - by apply test_email.
  - by apply test_phone.
  - by apply test_password.
  - by apply test_password.
Qed.

Lemma ada_has_fields : has_fields ada.
Proof. apply has_fields_form. Qed.

Lemma empty_errors_notifies_and_navigates_witness :
  let st := with_form ada initial in
  let events :=
    run (answers (JObject [(js "errors", JArray [])]))
        (@handleSubmit plain_text (js "Welcome") st) in
  has_fields (formData st)
  ∧ own_property [(js "errors", JArray [])] (js "errors") = Some (JArray [])
  ∧ successMessage (after st events) = js "Welcome"
  ∧ showSuccess (after st events) = true
  ∧ events !! 4 = Some (SetTimeout (Navigate (js "/login")) 2000).
Proof.
  intros st events.
  assert (Hwf : has_fields (formData st)) by (unfold has_fields; by_computation).
  assert (Hown : own_property [(js "errors", JArray [])] (js "errors")
                 = Some (JArray [])) by reflexivity.
  destruct (@empty_errors_notifies_and_navigates plain_text (js "Welcome") st
              (answers (JObject [(js "errors", JArray [])]))
              [(js "errors", JArray [])] Hwf eq_refl Hown)
    as (Hevents & Hmessage & Hshow).
  split_and!; [exact Hwf|exact Hown|exact Hmessage|exact Hshow|].
  fold events in Hevents. by rewrite Hevents.
Defined.


Lemma invalid_name_is_reported_witness :
  let st := with_form (form (js "Al") (js "X") [] [] [] []) initial in
  let events := run (answers JNull) (@handleSubmit plain_text (js "Welcome") st) in
  has_fields (formData st)
  ∧ name_invalid (field (formData st) "lastName")
  ∧ errorMessage (after st events) !! js "lastNameError"
    = Some (EMsg (js "Must be at least 2 characters long")).
Proof.
  intros st events.
  assert (Hwf : has_fields (formData st)) by (unfold has_fields; by_computation).
  assert (Hlast : name_invalid (field (formData st) "lastName"))
    by by_computation.
  destruct (@invalid_name_is_reported plain_text (js "Welcome") st
              (answers JNull) JNull Hwf eq_refl
              (ex_intro _ false eq_refl) (or_intror Hlast))
    as (key & v & Hcase & Hv & _ & _ & _ & Hentry & _).
  split_and!; [exact Hwf|exact Hlast|].
  destruct Hcase as [[_ ->]|(-> & -> & _)]; [|exact Hentry].
  exfalso. revert Hv. by apply name_failure_None.
Defined.

Lemma email_accepted_iff_shape_witness :
  let st := with_form ada initial in
  let events := run (answers JNull) (@handleSubmit plain_text (js "Welcome") st) in
  has_fields (formData st)
  ∧ reaches_email (formData st)
  ∧ errorMessage (after st events) !! js "emailError" = Some EFalse.
Proof.
  intros st events.
  assert (Hwf : has_fields (formData st)) by (unfold has_fields; by_computation).
  destruct ada_passes as ([[Hnames Hemail] _] & _).
  destruct (@email_accepted_iff_shape plain_text (js "Welcome") st
              (answers JNull) JNull Hwf eq_refl
              (ex_intro _ false eq_refl) Hnames) as ([_ Hentry] & _).
  split_and!; [exact Hwf|exact Hnames|exact (Hentry Hemail)].
Defined.

Lemma phone_accepted_iff_shape_witness :
  let st := with_form ada initial in
  let events := run (answers JNull) (@handleSubmit plain_text (js "Welcome") st) in
  has_fields (formData st)
  ∧ reaches_phone (formData st)
  ∧ plus_and_digits (field (formData st) "phoneNumber")
  ∧ errorMessage (after st events) !! js "phoneNumberError" = Some EFalse.
Proof.
  intros st events.
  assert (Hwf : has_fields (formData st)) by (unfold has_fields; by_computation).
  destruct ada_passes as ([Hphone Hshape] & _).
  destruct (@phone_accepted_iff_shape plain_text (js "Welcome") st
              (answers JNull) JNull Hwf eq_refl
              (ex_intro _ false eq_refl) Hphone)
    as ([Htotal _] & [_ Hentry] & _).
  split_and!; [exact Hwf|exact Hphone|exact (Htotal Hshape)|exact (Hentry Hshape)].
Defined.

Lemma password_check_outcomes_witness :
  let st :=
    with_form (form (js "Ada") (js "Lovelace") (js "ada@example.org")
                    (js "+36302748465") (js "Secret123") (js "Secret124"))
              initial in
  let events := run (answers JNull) (@handleSubmit plain_text (js "Welcome") st) in
  has_fields (formData st)
  ∧ reaches_password (formData st)
  ∧ errorMessage (after st events) !! js "passwordError"
    = Some (EMsg (js "The passwords don't match")).
Proof.
  intros st events.
  assert (Hwf : has_fields (formData st)) by (unfold has_fields; by_computation).
  destruct ada_passes as (Hreach & Hpw & _).
  assert (Hcpw : password_accepted (field (formData st) "confirmPassword"))
    by (by apply test_password).
  destruct (@password_check_outcomes plain_text (js "Welcome") st
              (answers JNull) JNull Hwf eq_refl
              (ex_intro _ false eq_refl) Hreach)
    as (_ & _ & Hmismatch & _).
  destruct (Hmismatch Hpw Hcpw ltac:(by vm_compute)) as [_ Hentry].
  split_and!; [exact Hwf|exact Hreach|exact Hentry].
Defined.

(** C7 as it was worded fails on a password that follows the rule but
    holds a line separator (U+2028): both fields hold the same 10
    characters with a lowercase letter, an uppercase letter and a digit,
    and yet passwordError is not cleared, it is set. *)
Lemma password_rule_rejected_on_line_separator :
  let password := js "Secret123" ++ [8232%N] in
  let st :=
    with_form (form (js "Ada") (js "Lovelace") (js "ada@example.org")
                    (js "+36302748465") password password)
              initial in
  let events := run (answers JNull) (@handleSubmit plain_text (js "Welcome") st) in
  reaches_password (formData st)
  ∧ password_rule (field (formData st) "password")
  ∧ password_rule (field (formData st) "confirmPassword")
  ∧ field (formData st) "password" = field (formData st) "confirmPassword"
  ∧ errorMessage (after st events) !! js "passwordError"
    = Some (EMsg (js "Min. 8 characters, upper and lowercase"))
  ∧ errorMessage (after st events) !! js "passwordError" ≠ Some EFalse.
Proof.
  intros password st events.
  assert (Hrule : password_rule password) by by_computation.
  assert (Hentry : errorMessage (after st events) !! js "passwordError"
                   = Some (EMsg (js "Min. 8 characters, upper and lowercase")))
    by (by vm_compute).
  split_and!; [exact (proj1 ada_passes)|exact Hrule|exact Hrule|done|exact Hentry|].
  by rewrite Hentry.
Qed.

Lemma success_iff_indicates_no_errors_witness :
  let st := with_form ada initial in
  let response := JObject [(js "errors", JArray [JString (js "Email taken")])] in
  let events := run (answers response) (@handleSubmit plain_text (js "Welcome") st) in
  has_fields (formData st)
  ∧ filter (fun e => is_success_event e = true) events = []
  ∧ showSuccess (after st events) = false.
Proof.
  intros st response events.
  assert (Hwf : has_fields (formData st)) by (unfold has_fields; by_computation).
  destruct (@success_iff_indicates_no_errors plain_text (js "Welcome") st
              (answers response) response Hwf eq_refl)
    as (_ & _ & Hnot & Hcases & _).
  assert (Hno : ¬ @indicates_no_errors plain_text response).
  { apply Hcases. do 3 right. by eexists _, _. }
  destruct (Hnot Hno) as (Hnone & _ & Hshow).
  split_and!; [exact Hwf|exact Hnone|exact Hshow].
Defined.

Lemma passing_validations_reset_entries_witness :
  let stale :=
    <[js "emailError" := EMsg (js "Incorrect email adress")]>
      (errorMessage initial) in
  let st := with_errors stale (with_form ada initial) in
  let events := run (answers JNull) (@handleSubmit plain_text (js "Welcome") st) in
  has_fields (formData st)
  ∧ ∀ k, k ∈ error_keys → errorMessage (after st events) !! k = Some EFalse.
Proof.
  intros stale st events.
  assert (Hwf : has_fields (formData st)) by (unfold has_fields; by_computation).
  destruct (@passing_validations_reset_entries plain_text (js "Welcome") st
              (answers JNull) JNull Hwf eq_refl
              (ex_intro _ false eq_refl)) as (_ & _ & Hall).
  split; [exact Hwf|]. apply Hall. by repeat constructor.
Defined.

(** C10 as it was worded fails on the password field.  The user fills
    the form, with two strong passwords that differ, and submits: this
    leaves 'The passwords don't match' in passwordError.  The user then
    retypes the confirmation, too short, and submits again: the password
    check is reached, the password passes its pattern, and yet
    passwordError is not reset, it keeps the stale message next to the
    new confirmPasswordError. *)
Lemma stale_passwordError_survives :
  let filled :=
    typed (js "confirmPassword") (js "Secret124")
      (typed (js "password") (js "Secret123")
        (typed (js "phoneNumber") (js "+36302748465")
          (typed (js "email") (js "ada@example.org")
            (typed (js "lastName") (js "Lovelace")
              (typed (js "firstName") (js "Ada") initial))))) in
  let before := typed (js "confirmPassword") (js "x") (submitted JNull filled) in
  let after_ := submitted JNull before in
  errorMessage before !! js "passwordError"
    = Some (EMsg (js "The passwords don't match"))
  ∧ reaches_password (formData before)
  ∧ test re_password (field (formData before) "password") = true
  ∧ errorMessage after_ !! js "confirmPasswordError"
    = Some (EMsg (js "Min. 8 characters, upper and lowercase"))
  ∧ errorMessage after_ !! js "passwordError"
    = Some (EMsg (js "The passwords don't match"))
  ∧ errorMessage after_ !! js "passwordError" ≠ Some EFalse.
Proof.
  intros filled before after_.
  assert (Hstale : errorMessage after_ !! js "passwordError"
                   = Some (EMsg (js "The passwords don't match")))
    by (by vm_compute).
  split_and!; [by vm_compute| |by vm_compute|by vm_compute|exact Hstale|].
  - unfold reaches_password, reaches_phone, reaches_email. split_and!.
    + by apply name_failure_None; vm_compute.
    + by apply name_failure_None; vm_compute.
    + by apply test_email; vm_compute.
    + by apply test_phone; vm_compute.
  - by rewrite Hstale.
Qed.

(** * More of the component *)

#[local] Set Warnings "-clear-no-such-hyp".

(** ** The page *)

Lemma error_toast_no_input entry name : find_input (error_toast entry) name = None.
Proof.
  unfold error_toast. destruct entry as [[|m]|]; [done| |done].
  by destruct (bool_decide (m = [])).
Qed.

Lemma find_input_app els1 els2 name :
  find_input (els1 ++ els2) name
  = match find_input els1 name with
    | Some v => Some v
    | None => find_input els2 name
    end.
Proof.
  induction els1 as [|el els1 IH]; [done|]. simpl.
  destruct el; try done. by destruct (decide (name0 = name)).
Qed.

Lemma error_toast_names entry :
  error_toast entry ≫= (fun el => match el with
                                  | Input _ name _ _ _ => [name]
                                  | _ => []
                                  end) = [].
Proof.
  unfold error_toast. destruct entry as [[|m]|]; [done| |done].
  by destruct (bool_decide (m = [])).
Qed.

(** The inputs on screen are those of the six fields, whatever the
    state. *)
Lemma input_names_fields st : input_names st = fields.
Proof.
  unfold input_names, render, success_toast.
  rewrite !bind_app, !error_toast_names. by destruct (showSuccess st).
Qed.

Lemma input_value_lookup st name :
  input_value st name
  = if decide (name ∈ fields) then formData st !! name else None.
Proof.
  unfold input_value, render, success_toast.
  rewrite !find_input_app, !error_toast_no_input.
  cbn [find_input].
  repeat (case_decide; [subst name; by rewrite decide_True by by_computation|]).
  rewrite decide_False.
  - by destruct (showSuccess st).
  - unfold fields. rewrite !elem_of_cons, elem_of_nil. intuition congruence.
Qed.

(** ** What the state keeps *)

Lemma dom_clear_all (ks : list (list N)) (em : gmap (list N) errval) :
  dom (clear_all ks em) = list_to_set ks ∪ dom em.
Proof.
  unfold clear_all. revert em.
  induction ks as [|k ks IH]; intros em; simpl.
  - set_solver.
  - rewrite IH, dom_insert_L. set_solver.
Qed.

Lemma well_formed_has_fields SUCCESS st :
  well_formed SUCCESS st → has_fields (formData st).
Proof.
  intros (Hdom & _). unfold has_fields. apply Forall_forall. intros k Hk.
  apply elem_of_dom. rewrite Hdom. by apply elem_of_list_to_set.
Qed.

Lemma initial_well_formed SUCCESS : well_formed SUCCESS initial.
Proof.
  unfold well_formed. split_and!.
  - by_computation.
  - by_computation.
  - intros k m. unfold initial. simpl. intros Hk.
    repeat (rewrite lookup_insert in Hk; case_decide; [done|]).
    by rewrite lookup_empty in Hk.
  - done.
Qed.

(** A validation can only report one of the messages, on one of the six
    entries. *)
Lemma failure_message fd v key m :
  v ∈ validations fd → failure v = Some (key, m) →
  key ∈ error_keys ∧ m ∈ messages.
Proof.
  unfold validations. rewrite !elem_of_cons, elem_of_nil.
  intros [->|[->|[->|[->|[->|[]]]]]]; simpl.
  - unfold name_failure. repeat case_match; intros [= <- <-];
      split; by_computation.
  - unfold name_failure. repeat case_match; intros [= <- <-];
      split; by_computation.
  - unfold email_failure. repeat case_match; intros [= <- <-];
      split; by_computation.
  - unfold phone_failure. repeat case_match; intros [= <- <-];
      split; by_computation.
  - unfold password_failure. repeat case_match; intros [= <- <-];
      split; by_computation.
Qed.

Section More.
Context `{!NumericText}.
Variable SUCCESS : jsstring.

(** The state after a submit that the adapter answers. *)
Lemma submit_state st net response :
  has_fields (formData st) →
  net (js "/api/users/register") (formData st) = Resolved response →
  evaluates response →
  let st' := after st (run net (handleSubmit SUCCESS st)) in
  formData st' = formData st
  ∧ (indicates_no_errors response
     ∧ successMessage st' = SUCCESS ∧ showSuccess st' = true
     ∨ ¬ indicates_no_errors response
       ∧ successMessage st' = successMessage st
       ∧ showSuccess st' = showSuccess st)
  ∧ (Forall passes (validations (formData st))
     ∧ errorMessage st' = clear_all error_keys (errorMessage st)
     ∨ ∃ passed v rest key message,
         validations (formData st) = passed ++ v :: rest
         ∧ Forall passes passed
         ∧ failure v = Some (key, message)
         ∧ errorMessage st'
           = <[key := EMsg message]>
               (clear_all (concat (clears <$> passed)) (errorMessage st))).
Proof.
  intros Hwf Hnet Hev st'. subst st'. split_and!.
  - by apply handleSubmit_keeps_formData.
  - destruct (submit_events SUCCESS st net response Hwf Hnet Hev)
      as (notify & -> & Hcases).
    assert (Hn : notify = success_events SUCCESS ∨ notify = [])
      by (destruct Hcases as [[_ ->]|[_ ->]]; auto).
    destruct (after_submit SUCCESS st (js "/api/users/register") (formData st)
                notify (validations (formData st)) Hn) as (-> & -> & _ & _).
    destruct Hcases as [[Hi ->]|[Hi ->]]; [left|right]; done.
  - destruct (first_failure_split (validations (formData st)))
      as [Hp|(passed & v & rest & key & message & Hvs & Hp & Hv)].
    + left. split; [done|].
      by destruct (submit_all_pass SUCCESS st net response Hwf Hnet Hev Hp)
        as (_ & _ & ->).
    + right. exists passed, v, rest, key, message. split_and!; try done.
      by destruct (submit_first_failure SUCCESS st net response passed v rest
                     key message Hwf Hnet Hev Hvs Hp Hv) as (_ & _ & _ & ->).
Qed.

(** A submit whose promise is rejected stops at the [await]. *)
Lemma submit_rejected st net :
  net (js "/api/users/register") (formData st) = Rejected →
  run net (handleSubmit SUCCESS st)
  = [PreventDefault; Put (js "/api/users/register") (formData st); Uncaught].
Proof.
  intros Hnet. unfold handleSubmit.
  cbn [run seq_ preventDefault exec await_put]. by rewrite Hnet.
Qed.

Lemma passed_keys fd passed v rest :
  validations fd = passed ++ v :: rest →
  ∀ k, k ∈ concat (clears <$> passed) ∨ k ∈ clears v → k ∈ error_keys.
Proof.
  intros Hvs k Hk.
  change error_keys with (concat (clears <$> validations fd)).
  rewrite Hvs, fmap_app, concat_app, fmap_cons. simpl.
  rewrite !elem_of_app. tauto.
Qed.

Lemma submit_well_formed st net :
  well_formed SUCCESS st →
  well_formed SUCCESS (after st (run net (handleSubmit SUCCESS st))).
Proof.
  intros Hst. pose proof (well_formed_has_fields _ _ Hst) as Hwf.
  destruct (net (js "/api/users/register") (formData st)) as [response|] eqn:Hnet.
  2: { by rewrite (submit_rejected st net Hnet). }
  destruct (no_errors response) as [b|] eqn:Hb.
  2: { by rewrite (submit_thrown SUCCESS st net response Hnet Hb). }
  assert (Hev : evaluates response) by by exists b.
  destruct (submit_state st net response Hwf Hnet Hev) as (Hfd & Hsucc & Herr).
  destruct Hst as (Hdf & Hde & Hmsg & Hsm).
  unfold well_formed. rewrite Hfd. split_and!; [done| | |].
  - destruct Herr as [[_ ->]|(passed & v & rest & key & m & Hvs & _ & Hv & ->)].
    + rewrite dom_clear_all, Hde. set_solver.
    + rewrite dom_insert_L, dom_clear_all, Hde.
      pose proof (passed_keys _ _ _ _ Hvs) as Hkeys.
      pose proof (validations_well_keyed (formData st)) as Hwk.
      rewrite Hvs in Hwk. apply Forall_app in Hwk as [_ [Hwk _]%Forall_cons].
      specialize (Hwk _ _ Hv).
      apply set_eq. intros k. rewrite !elem_of_union, elem_of_singleton,
        !elem_of_list_to_set. split; [|tauto].
      intros [->|[Hk|Hk]]; auto.
  - intros k m.
    destruct Herr as [[_ ->]|(passed & v & rest & key & msg & Hvs & _ & Hv & ->)].
    + rewrite lookup_clear_all. case_decide; [done|]. apply Hmsg.
    + rewrite lookup_insert. case_decide.
      * intros [= <-]. eapply failure_message; [|exact Hv].
        rewrite Hvs. apply elem_of_app. right. by left.
      * rewrite lookup_clear_all. case_decide; [done|]. apply Hmsg.
  - destruct Hsucc as [(_ & -> & ->)|(_ & -> & ->)]; done.
Qed.

Lemma change_well_formed st net name value :
  well_formed SUCCESS st → name ∈ fields →
  well_formed SUCCESS (after st (run net (handleChange st name value))).
Proof.
  intros (Hdf & Hde & Hmsg & Hsm) Hname. unfold well_formed. simpl.
  split_and!; try done.
  rewrite dom_insert_L, Hdf.
  assert (name ∈ (list_to_set fields : gset (list N)))
    by by apply elem_of_list_to_set.
  set_solver.
Qed.

Lemma step_well_formed st st' :
  well_formed SUCCESS st → step SUCCESS st st' → well_formed SUCCESS st'.
Proof.
  intros Hst Hstep. destruct Hstep as [st net name value Hname|st net].
  - apply change_well_formed; [done|]. by rewrite input_names_fields in Hname.
  - by apply submit_well_formed.
Qed.

Lemma reachable_well_formed st :
  reachable SUCCESS st → well_formed SUCCESS st.
Proof.
  unfold reachable. intros Hr.
  eapply (rtc_ind_r (well_formed SUCCESS)); [| |exact Hr].
  - apply initial_well_formed.
  - intros y z _ Hstep Hy. by eapply step_well_formed.
Qed.

End More.

(** ** The toasts on screen *)

Lemma error_toast_pairs entry :
  error_toast entry ≫= (fun el => match el with
                                  | Toast type message _ => [(type, message)]
                                  | _ => []
                                  end) = entry_toasts entry.
Proof.
  unfold error_toast, entry_toasts. destruct entry as [[|m]|]; [done| |done].
  by destruct (bool_decide (m = [])).
Qed.

(** The error toasts come in the order of the fields, the success toast
    last. *)
Lemma toasts_eq st :
  toasts st
  = (error_keys ≫= fun k => entry_toasts (errorMessage st !! k))
    ++ (if showSuccess st then [(js "success", successMessage st)] else []).
Proof.
  unfold toasts, render, success_toast, error_keys.
  rewrite !bind_app, !error_toast_pairs.
  cbn [mbind list_bind app]. rewrite !app_nil_r, <- !app_assoc.
  do 6 f_equal. by destruct (showSuccess st).
Qed.

Lemma elem_of_entry_toasts entry type m :
  (type, m) ∈ entry_toasts entry
  ↔ type = js "error" ∧ m ≠ [] ∧ entry = Some (EMsg m).
Proof.
  unfold entry_toasts. destruct entry as [[|m']|].
  - rewrite elem_of_nil. split; [done|]. by intros (_ & _ & ?).
  - destruct (decide (m' = [])) as [->|Hne].
    + rewrite bool_decide_eq_true_2 by done. rewrite elem_of_nil.
      split; [done|]. intros (_ & Hm & [= <-]). done.
    + rewrite bool_decide_eq_false_2 by done. rewrite list_elem_of_singleton.
      split; [intros [= -> ->]; done|]. by intros (-> & _ & [= ->]).
  - rewrite elem_of_nil. split; [done|]. by intros (_ & _ & ?).
Qed.

Lemma elem_of_toasts st type m :
  (type, m) ∈ toasts st
  ↔ (type = js "error" ∧ m ≠ []
     ∧ ∃ k, k ∈ error_keys ∧ errorMessage st !! k = Some (EMsg m))
    ∨ (type = js "success" ∧ showSuccess st = true ∧ m = successMessage st).
Proof.
  rewrite toasts_eq, elem_of_app, list_elem_of_bind.
  setoid_rewrite elem_of_entry_toasts. split.
  - intros [(k & (-> & Hm & Hk) & Hin)|Hs]; [left; eauto 10|right].
    destruct (showSuccess st); [|by apply elem_of_nil in Hs].
    by apply list_elem_of_singleton in Hs as [= -> ->].
  - intros [(-> & Hm & k & Hin & Hk)|(-> & Hs & ->)]; [left; eauto 10|right].
    rewrite Hs. by apply list_elem_of_singleton.
Qed.

(** ** The rules as a whole *)

Lemma email_failure_None v : email_failure v = None ↔ email_shape v.
Proof.
  split; [|apply email_failure_accepts]. unfold email_failure.
  destruct (test re_email v) eqn:Ht; [|done]. intros _. by apply test_email.
Qed.

Lemma phone_failure_None v : phone_failure v = None ↔ phone_shape v.
Proof.
  split; [|apply phone_failure_accepts]. unfold phone_failure.
  destruct (test re_phone v) eqn:Ht; [|done]. intros _. by apply test_phone.
Qed.

Lemma password_failure_None pw cpw :
  password_failure pw cpw = None
  ↔ password_accepted pw ∧ password_accepted cpw ∧ pw = cpw.
Proof.
  unfold password_failure. rewrite <- !test_password_accepted.
  destruct (test re_password pw), (test re_password cpw); simpl;
    try (split; [done|intros (? & ? & ?); done]).
  destruct (decide (pw = cpw)) as [->|Hne].
  - by rewrite bool_decide_eq_true_2.
  - rewrite bool_decide_eq_false_2 by done. split; [done|tauto].
Qed.

(** Every validation passes exactly when the form follows all the
    rules. *)
Lemma all_pass_form_valid fd :
  Forall passes (validations fd) ↔ form_valid fd.
Proof.
  unfold validations, passes, form_valid, reaches_password, reaches_phone,
    reaches_email.
  rewrite !Forall_cons, Forall_nil. simpl.
  rewrite password_failure_None.
  assert (Hname : ∀ (k : list N → list N * list N) v, k <$> name_failure v = None ↔ ¬ name_invalid v).
  { intros k v. split.
    - intros Hf. apply name_failure_None. by destruct (name_failure v).
    - by intros ->%name_failure_valid. }
  assert (Hemail : ∀ (k : list N → list N * list N) v, k <$> email_failure v = None ↔ email_shape v).
  { intros k v. rewrite <- email_failure_None. by destruct (email_failure v). }
  assert (Hphone : ∀ (k : list N → list N * list N) v, k <$> phone_failure v = None ↔ phone_shape v).
  { intros k v. rewrite <- phone_failure_None. by destruct (phone_failure v). }
  rewrite !Hname, Hemail, Hphone. tauto.
Qed.

(** ** The component over its life *)

Lemma report_no_request vs :
  filter (fun e => is_request e = true) (report vs) = []
  ∧ Uncaught ∉ report vs.
Proof.
  pose proof (report_validation_events vs) as H.
  induction H as [|e es He _ [IH1 IH2]]; [split; [done|apply not_elem_of_nil]|].
  destruct e; try done. split.
  - by rewrite filter_cons_False.
  - by apply not_elem_of_cons.
Qed.

Section Coverage.
Context `{!NumericText}.
Variable SUCCESS : jsstring.

(** X1.  In every state the component can reach, [formData] has exactly
    its six fields and [errorMessage] exactly its six entries, the inputs
    on screen are those of the six fields and each of them shows a
    string: typing never adds a stray key, a submit never drops one. *)
Theorem reachable_state_shape st :
  reachable SUCCESS st →
  dom (formData st) = list_to_set fields
  ∧ dom (errorMessage st) = list_to_set error_keys
  ∧ input_names st = fields
  ∧ ∀ name, name ∈ input_names st → is_Some (input_value st name).
Proof.
  intros Hr. pose proof (reachable_well_formed SUCCESS st Hr) as Hst.
  pose proof (well_formed_has_fields _ _ Hst) as Hwf.
  destruct Hst as (Hdf & Hde & _).
  split_and!; [done|done|apply input_names_fields|].
  intros name. rewrite input_names_fields, input_value_lookup. intros Hname.
  rewrite decide_True by done.
  unfold has_fields in Hwf. rewrite Forall_forall in Hwf. by apply Hwf.
Qed.

(** X2.  In every reachable state a submit sends exactly one request,
    and it ends in an uncaught exception only when the promise of the
    adapter is rejected or the condition of the first [if] throws on the
    response: no property of [formData] is ever missing when the
    validations read it. *)
Theorem submit_throws_iff_rejected_or_unreadable st net :
  reachable SUCCESS st →
  let events := run net (handleSubmit SUCCESS st) in
  (Uncaught ∈ events
   ↔ net (js "/api/users/register") (formData st) = Rejected
     ∨ ∃ response,
         net (js "/api/users/register") (formData st) = Resolved response
         ∧ throws response)
  ∧ filter (fun e => is_request e = true) events
    = [Put (js "/api/users/register") (formData st)].
Proof.
  intros Hr events. subst events.
  pose proof (well_formed_has_fields _ _ (reachable_well_formed SUCCESS st Hr))
    as Hwf.
  destruct (net (js "/api/users/register") (formData st)) as [response|] eqn:Hnet.
  - destruct (no_errors response) as [b|] eqn:Hb.
    + assert (Hev : evaluates response) by by exists b.
      destruct (submit_events SUCCESS st net response Hwf Hnet Hev)
        as (notify & -> & Hcases).
      destruct (report_no_request (validations (formData st))) as [Hreq Hun].
      rewrite !filter_app, Hreq. split.
      * split.
        -- rewrite !elem_of_app. intros [Hin|[Hin|Hin]]; [| |done].
           ++ by apply list_elem_of_In in Hin as [?|[?|[]]].
           ++ destruct Hcases as [[_ ->]|[_ ->]];
                [by apply list_elem_of_In in Hin as [?|[?|[?|[]]]]
                |by apply elem_of_nil in Hin].
        -- intros [?|(response' & [= <-] & Hthrows%no_errors_None)];
             congruence.
      * by destruct Hcases as [[_ ->]|[_ ->]].
    + rewrite (submit_thrown SUCCESS st net response Hnet Hb). split; [|done].
      split; [|intros _; do 2 right; by left].
      intros _. right. exists response. by rewrite <- no_errors_None.
  - rewrite (submit_rejected SUCCESS st net Hnet). split; [|done].
    split; [by left|]. intros _. do 2 right. by left.
Qed.

(** X3.  When the promise of the adapter is rejected, the handler stops
    at the [await]: the request has been sent, nothing is validated and
    the state is what it was. *)
Theorem rejected_submit_changes_nothing st net :
  net (js "/api/users/register") (formData st) = Rejected →
  let events := run net (handleSubmit SUCCESS st) in
  events
  = [PreventDefault; Put (js "/api/users/register") (formData st); Uncaught]
  ∧ after st events = st
  ∧ toasts (after st events) = toasts st.
Proof.
  intros Hnet events. subst events.
  rewrite (submit_rejected SUCCESS st net Hnet). by split_and!.
Qed.

(** X4.  What the validations do does not depend on the response, as
    long as the condition of the first [if] can be evaluated on it: two
    submits of the same form, answered differently, make the same
    [setErrorMessage] calls and leave the same [errorMessage].  The
    errors the server lists never reach it. *)
Theorem validation_ignores_response st net1 net2 response1 response2 :
  has_fields (formData st) →
  net1 (js "/api/users/register") (formData st) = Resolved response1 →
  net2 (js "/api/users/register") (formData st) = Resolved response2 →
  evaluates response1 →
  evaluates response2 →
  let events1 := run net1 (handleSubmit SUCCESS st) in
  let events2 := run net2 (handleSubmit SUCCESS st) in
  filter (fun e => is_validation_event e = true) events1
  = filter (fun e => is_validation_event e = true) events2
  ∧ errorMessage (after st events1) = errorMessage (after st events2).
Proof.
  intros Hwf Hnet1 Hnet2 Hev1 Hev2 events1 events2. subst events1 events2.
  destruct (submit_summary SUCCESS st net1 response1 Hwf Hnet1 Hev1)
    as (-> & _ & _ & _ & ->).
  by destruct (submit_summary SUCCESS st net2 response2 Hwf Hnet2 Hev2)
    as (-> & _ & _ & _ & ->).
Qed.

(** X5.  In every reachable state, an error toast on screen shows one of
    the six messages written in [handleSubmit], never anything else. *)
Theorem error_toasts_show_known_messages st m :
  reachable SUCCESS st →
  (js "error", m) ∈ toasts st →
  m ∈ messages.
Proof.
  intros Hr Hin.
  destruct (reachable_well_formed SUCCESS st Hr) as (_ & _ & Hmsg & _).
  apply elem_of_toasts in Hin as [(_ & _ & k & _ & Hk)|(Hty & _)].
  - by eapply Hmsg.
  - by vm_compute in Hty.
Qed.

(** X6.  Once the success toast is shown it stays, with the success
    message, whatever the user does next: no handler hides it, not even
    a later submit that fails. *)
Theorem success_toast_stays st st' :
  reachable SUCCESS st →
  step SUCCESS st st' →
  showSuccess st = true →
  showSuccess st' = true ∧ (js "success", SUCCESS) ∈ toasts st'.
Proof.
  intros Hr Hstep Hshow.
  pose proof (reachable_well_formed SUCCESS st Hr) as Hst.
  pose proof (step_well_formed SUCCESS st st' Hst Hstep) as (_ & _ & _ & Hsm).
  assert (Hshow' : showSuccess st' = true).
  { destruct Hstep as [st net name value _|st net]; [done|].
    pose proof (well_formed_has_fields _ _ Hst) as Hwf.
    destruct (net (js "/api/users/register") (formData st))
      as [response|] eqn:Hnet.
    - destruct (no_errors response) as [b|] eqn:Hb.
      2: { by rewrite (submit_thrown SUCCESS st net response Hnet Hb). }
      assert (Hev : evaluates response) by by exists b.
      destruct (submit_state SUCCESS st net response Hwf Hnet Hev)
        as (_ & [(_ & _ & ->)|(_ & _ & ->)] & _); done.
    - by rewrite (submit_rejected SUCCESS st net Hnet). }
  split; [done|]. apply elem_of_toasts. right.
  rewrite Hshow' in Hsm. by rewrite Hsm.
Qed.

Lemma State_eq (a b : State) :
  successMessage a = successMessage b → showSuccess a = showSuccess b →
  errorMessage a = errorMessage b → formData a = formData b → a = b.
Proof. destruct a, b. simpl. by intros -> -> -> ->. Qed.

(** What a report makes of [errorMessage] is settled after one pass. *)
Lemma report_settled st st1 vs :
  errorMessage st1 = errorMessage (after st (report vs)) →
  errorMessage (after st1 (report vs)) = errorMessage st1.
Proof.
  intros H1.
  destruct (first_failure_split vs)
    as [Hp|(passed & v & rest & key & message & -> & Hp & Hv)].
  - rewrite (report_all_pass _ Hp), errorMessage_cleared in H1 |- *.
    apply map_eq. intros k. rewrite lookup_clear_all, H1, lookup_clear_all.
    by case_decide.
  - rewrite (report_first_failure _ _ _ _ _ Hp Hv), after_app in H1 |- *.
    simpl in H1 |- *. rewrite errorMessage_cleared in H1 |- *.
    apply map_eq. intros k. rewrite lookup_insert, lookup_clear_all.
    rewrite H1, lookup_insert, lookup_clear_all. by repeat case_decide.
Qed.

(** X7.  A submit, answered or not, successful or not, leaves every
    input with what the user typed: the form is never cleared, the
    passwords included. *)
Theorem submit_keeps_what_was_typed st net name :
  has_fields (formData st) →
  input_value (after st (run net (handleSubmit SUCCESS st))) name
  = input_value st name.
Proof.
  intros Hwf. rewrite !input_value_lookup.
  by rewrite (handleSubmit_keeps_formData SUCCESS st net Hwf).
Qed.

(** X8.  Submitting the same form again, with the same answer of the
    adapter, changes nothing: the state after the second submit is the
    state after the first. *)
Theorem submit_twice_is_submit_once st net :
  has_fields (formData st) →
  let st1 := after st (run net (handleSubmit SUCCESS st)) in
  after st1 (run net (handleSubmit SUCCESS st1)) = st1.
Proof.
  intros Hwf st1.
  assert (Hfd : formData st1 = formData st)
    by apply (handleSubmit_keeps_formData SUCCESS st net Hwf).
  assert (Hwf1 : has_fields (formData st1)) by by rewrite Hfd.
  destruct (net (js "/api/users/register") (formData st)) as [response|] eqn:Hnet.
  2: { assert (Hst1 : st1 = st)
         by (subst st1; by rewrite (submit_rejected SUCCESS st net Hnet)).
       by rewrite Hst1 at 1 2. }
  destruct (no_errors response) as [b|] eqn:Hb.
  2: { assert (Hst1 : st1 = st)
         by (subst st1;
             by rewrite (submit_thrown SUCCESS st net response Hnet Hb)).
       by rewrite Hst1 at 1 2. }
  assert (Hev : evaluates response) by by exists b.
  assert (Hnet1 : net (js "/api/users/register") (formData st1) = Resolved response)
    by by rewrite Hfd.
  destruct (submit_state SUCCESS st net response Hwf Hnet Hev) as (_ & Hs & _).
  destruct (submit_state SUCCESS st1 net response Hwf1 Hnet1 Hev)
    as (Hfd2 & Hs1 & _).
  fold st1 in Hs.
  apply State_eq.
  - destruct Hs as [(Hi & -> & _)|(Hi & _)], Hs1 as [(Hi1 & -> & _)|(Hi1 & -> & _)];
      done.
  - destruct Hs as [(Hi & _ & ->)|(Hi & _)], Hs1 as [(Hi1 & _ & ->)|(Hi1 & _ & ->)];
      done.
  - destruct (submit_summary SUCCESS st net response Hwf Hnet Hev)
      as (_ & _ & _ & _ & Hem).
    destruct (submit_summary SUCCESS st1 net response Hwf1 Hnet1 Hev)
      as (_ & _ & _ & _ & ->).
    rewrite Hfd. apply (report_settled st). exact Hem.
  - exact Hfd2.
Qed.

(** X9.  Changes compose as writes to one object: of two changes to the
    same input the last one wins, changes to different inputs commute,
    and retyping the value a field already has changes nothing. *)
Theorem handleChange_composes st net name1 name2 value1 value2 :
  let change n v s := after s (run net (handleChange s n v)) in
  change name1 value2 (change name1 value1 st) = change name1 value2 st
  ∧ (name1 ≠ name2 →
     change name1 value1 (change name2 value2 st)
     = change name2 value2 (change name1 value1 st))
  ∧ (formData st !! name1 = Some value1 → change name1 value1 st = st).
Proof.
  intros change. subst change. split_and!.
  - apply State_eq; try done. simpl. apply insert_insert_eq.
  - intros Hne. apply State_eq; try done. simpl. by apply insert_insert_ne.
  - intros Hv. apply State_eq; try done. simpl. by apply insert_id.
Qed.

Lemma reported_nil_iff_form_valid st net response :
  has_fields (formData st) →
  net (js "/api/users/register") (formData st) = Resolved response →
  evaluates response →
  reported (run net (handleSubmit SUCCESS st)) = [] ↔ form_valid (formData st).
Proof.
  intros Hwf Hnet Hev. rewrite <- all_pass_form_valid.
  destruct (first_failure_split (validations (formData st)))
    as [Hp|(passed & v & rest & key & message & Hvs & Hp & Hv)].
  - by destruct (submit_all_pass SUCCESS st net response Hwf Hnet Hev Hp)
      as (-> & _).
  - destruct (submit_first_failure SUCCESS st net response passed v rest key
                message Hwf Hnet Hev Hvs Hp Hv) as (_ & -> & _).
    split; [done|]. intros Hall. rewrite Hvs in Hall.
    apply Forall_app in Hall as [_ [Hpass _]%Forall_cons].
    unfold passes in Hpass. congruence.
Qed.

(** X10.  A submit reports no message exactly when the form follows
    every rule (names, email, phone, the two passwords and their
    equality); and then no error toast is left on screen, whatever stale
    messages were there before.
    This is for a submit that reaches the validations: the promise is
    resolved and the condition of the first [if] does not throw. *)
Theorem nothing_reported_iff_form_valid st net response :
  has_fields (formData st) →
  net (js "/api/users/register") (formData st) = Resolved response →
  evaluates response →
  let events := run net (handleSubmit SUCCESS st) in
  (reported events = [] ↔ form_valid (formData st))
  ∧ (form_valid (formData st) → ∀ m, (js "error", m) ∉ toasts (after st events)).
Proof.
  intros Hwf Hnet Hev events. subst events.
  split; [apply (reported_nil_iff_form_valid st net response Hwf Hnet Hev)|].
  rewrite <- all_pass_form_valid. intros Hp m Hin.
  destruct (submit_all_pass SUCCESS st net response Hwf Hnet Hev Hp)
    as (_ & _ & Hem).
  apply elem_of_toasts in Hin as [(_ & _ & k & Hk & Hentry)|(Hty & _)].
  - rewrite Hem, lookup_clear_all, decide_True in Hentry; done.
  - by vm_compute in Hty.
Qed.

(** X11.  Typing into one of the inputs shows the typed value in that
    input, leaves the other inputs as they were and dismisses no toast:
    an error stays on screen until the next submit. *)
Theorem typing_shows_value_keeps_toasts st net name value :
  name ∈ fields →
  let st' := after st (run net (handleChange st name value)) in
  input_value st' name = Some value
  ∧ (∀ other, other ≠ name → input_value st' other = input_value st other)
  ∧ toasts st' = toasts st.
Proof.
  intros Hname st'. subst st'. split_and!.
  - rewrite input_value_lookup, decide_True by done. apply lookup_insert_eq.
  - intros other Hne. rewrite !input_value_lookup. case_decide; [|done].
    simpl. by apply lookup_insert_ne.
  - by rewrite !toasts_eq.
Qed.

Lemma messages_nonempty m : m ∈ messages → m ≠ [].
Proof.
  unfold messages. rewrite !elem_of_cons, elem_of_nil.
  intros [->|[->|[->|[->|[->|[->|[]]]]]]]; done.
Qed.

(** X12.  When the server answers without errors a form that breaks a
    rule, the same submit shows the success toast, schedules the
    navigation to /login and shows an error toast with the message of
    the first rule that is broken. *)
Theorem server_success_with_invalid_form st net response :
  has_fields (formData st) →
  net (js "/api/users/register") (formData st) = Resolved response →
  indicates_no_errors response →
  ¬ form_valid (formData st) →
  let events := run net (handleSubmit SUCCESS st) in
  SetTimeout (Navigate (js "/login")) 2000 ∈ events
  ∧ (js "success", SUCCESS) ∈ toasts (after st events)
  ∧ ∃ key m, reported events = [(key, m)]
             ∧ (js "error", m) ∈ toasts (after st events)
             ∧ ∃ passed v rest,
                 validations (formData st) = passed ++ v :: rest
                 ∧ Forall passes passed
                 ∧ failure v = Some (key, m).
Proof.
  intros Hwf Hnet Hi Hinvalid events. subst events.
  rewrite <- all_pass_form_valid in Hinvalid.
  pose proof (indicates_evaluates response Hi) as Hev.
  destruct (submit_state SUCCESS st net response Hwf Hnet Hev)
    as (_ & Hs & Herr).
  destruct Hs as [(_ & Hsm & Hshow)|(? & _)]; [|done].
  destruct Herr as [[Hp _]|(passed & v & rest & key & m & Hvs & Hp & Hv & Hem)];
    [done|].
  destruct (submit_first_failure SUCCESS st net response passed v rest key m
              Hwf Hnet Hev Hvs Hp Hv) as (_ & Hrep & _).
  destruct (failure_message (formData st) v key m) as [Hkey Hm]; [|done|].
  { rewrite Hvs. apply elem_of_app. right. by left. }
  split_and!.
  - destruct (submit_events SUCCESS st net response Hwf Hnet Hev)
      as (notify & -> & [[_ ->]|[? _]]); [|done].
    rewrite !elem_of_app. right. left. do 2 right. by left.
  - apply elem_of_toasts. right. by rewrite Hsm, Hshow.
  - exists key, m. split_and!; [done| |by exists passed, v, rest].
    apply elem_of_toasts. left.
    split_and!; [done|by apply messages_nonempty|].
    exists key. split; [done|]. rewrite Hem. apply lookup_insert_eq.
Qed.

(** X13.  A field missing from [formData] (no reachable state has one),
    on a response on which the condition of the first [if] can be
    evaluated.  Without [firstName] the handler throws when it reads
    the length: the run is the request, the success notification if the
    response indicates no errors, and the exception, with no
    [setErrorMessage].  Without [email] it does not throw: after the
    request and the optional notification the two name entries are
    cleared, the pattern is tested on the text "undefined" and the
    email is reported as incorrect, which ends the run. *)
Theorem missing_field_behaviour st net response :
  net (js "/api/users/register") (formData st) = Resolved response →
  evaluates response →
  let events := run net (handleSubmit SUCCESS st) in
  ∃ notify,
    (indicates_no_errors response ∧ notify = success_events SUCCESS
     ∨ ¬ indicates_no_errors response ∧ notify = [])
    ∧ (formData st !! js "firstName" = None →
         events
         = [PreventDefault; Put (js "/api/users/register") (formData st)]
           ++ notify ++ [Uncaught]
         ∧ last events = Some Uncaught
         ∧ filter (fun e => is_validation_event e = true) events = [])
    ∧ (∀ firstName lastName,
         formData st !! js "firstName" = Some firstName →
         formData st !! js "lastName" = Some lastName →
         ¬ name_invalid firstName → ¬ name_invalid lastName →
         formData st !! js "email" = None →
         events
         = [PreventDefault; Put (js "/api/users/register") (formData st)]
           ++ notify
           ++ [SetErrorMessage [(js "firstNameError", EFalse)];
               SetErrorMessage [(js "lastNameError", EFalse)];
               SetErrorMessage
                 [(js "emailError", EMsg (js "Incorrect email adress"))]]
         ∧ (Uncaught ∉ events)
         ∧ reported events = [(js "emailError", js "Incorrect email adress")]).
Proof.
  intros Hnet Hev events. subst events. unfold handleSubmit.
  cbn [run seq_ preventDefault exec await_put]. rewrite Hnet.
  exists (if default false (no_errors response)
          then success_events SUCCESS else []).
  destruct (no_errors_decided response Hev) as [[Hi Hb]|[Hi Hb]];
    rewrite Hb; cbn [default from_option id].
  all: split; [by auto|]; split.
  all: try (intros ->;
    cbn [if_ seq_ setSuccessMessage setShowSuccess setTimeout exec skip run
         lt_ length_of fmap option_fmap option_map]; done).
  all: intros f l -> -> Hf Hl ->;
    apply name_failure_valid in Hf, Hl; unfold name_failure in Hf, Hl;
    unfold test_, is_false, lt_, length_of;
    cbn [default from_option fmap option_fmap option_map id];
    (destruct (length f <? 2); [done|]); (destruct (test re_digit f); [done|]);
    (destruct (length l <? 2); [done|]); (destruct (test re_digit l); [done|]);
    assert (Hu : test re_email (js "undefined") = false) by reflexivity;
    rewrite Hu;
    cbn [if_ seq_ setSuccessMessage setShowSuccess setTimeout setErrorMessage
         return_ exec skip run negb success_events app];
    (split_and!; [done| |done]);
    rewrite !not_elem_of_cons; split_and!; try done; apply not_elem_of_nil.
Qed.

Lemma filter_none (x : N) (p : list N) :
  Forall (fun c => c ≠ x) p → filter (fun c => c = x) p = [].
Proof.
  induction 1 as [|c p Hc _ IH]; [done|]. by rewrite filter_cons_False.
Qed.

(** X14.  An email that the pattern accepts holds exactly one '@', at
    least 5 characters and no whitespace. *)
Theorem accepted_email_facts v :
  test re_email v = true →
  length (filter (fun c => c = chr "@") v) = 1
  ∧ 5 ≤ length v
  ∧ Forall (fun c => ¬ whitespace c) v.
Proof.
  intros (p1 & p2 & p3 & -> & [Hn1 Hp1] & [Hn2 Hp2] & [Hn3 Hp3])%test_email.
  change (js "@") with [chr "@"]. change (js ".") with [chr "."].
  assert (Hat : ∀ p, Forall (fun c => ¬ whitespace c ∧ c ≠ chr "@") p →
            filter (fun c => c = chr "@") p = []
            ∧ Forall (fun c => ¬ whitespace c) p).
  { intros p Hp. split.
    - apply filter_none. eapply Forall_impl; [exact Hp|]. by intros c [_ ?].
    - eapply Forall_impl; [exact Hp|]. by intros c [? _]. }
  destruct (Hat _ Hp1) as [Hf1 Hw1], (Hat _ Hp2) as [Hf2 Hw2],
    (Hat _ Hp3) as [Hf3 Hw3].
  split_and!.
  - rewrite !filter_app, Hf1, Hf2, Hf3. done.
  - rewrite !length_app. simpl.
    apply nonempty_length in Hn1, Hn2, Hn3. lia.
  - rewrite !Forall_app. split_and!; try done; by repeat constructor.
Qed.

(** X15.  When a submit reports no message, the lengths of what was
    typed are bounded below, and for the phone number above: names of 2
    characters or more, an email of 5 or more, a phone number of 11 to
    13, a password of 8 or more, equal to its confirmation.
    This is for a submit that reaches the validations: the promise is
    resolved and the condition of the first [if] does not throw. *)
Theorem accepted_form_lengths st net response :
  has_fields (formData st) →
  net (js "/api/users/register") (formData st) = Resolved response →
  evaluates response →
  reported (run net (handleSubmit SUCCESS st)) = [] →
  2 ≤ length (field (formData st) "firstName")
  ∧ 2 ≤ length (field (formData st) "lastName")
  ∧ 5 ≤ length (field (formData st) "email")
  ∧ 11 ≤ length (field (formData st) "phoneNumber") ≤ 13
  ∧ 8 ≤ length (field (formData st) "password")
  ∧ field (formData st) "confirmPassword" = field (formData st) "password".
Proof.
  intros Hwf Hnet Hev Hrep.
  apply (reported_nil_iff_form_valid st net response Hwf Hnet Hev) in Hrep
    as ([[[Hf Hl] He] Hp] & [[Hlen _] _] & _ & Heq).
  unfold name_invalid, name_too_short in Hf, Hl.
  destruct He as (p1 & p2 & p3 & -> & [Hn1 _] & [Hn2 _] & [Hn3 _]).
  apply phone_shape_total in Hp as (ds & -> & _ & Hlo & Hhi).
  apply nonempty_length in Hn1, Hn2, Hn3.
  rewrite !length_app. change (length (js "@")) with 1.
  change (length (js ".")) with 1. change (length (js "+")) with 1.
  split_and!; try lia. done.
Qed.

End Coverage.

(** ** The component over its life, on concrete forms *)

Lemma typed_reachable name value st :
  @reachable plain_text (js "Welcome") st → name ∈ fields →
  @reachable plain_text (js "Welcome") (typed name value st).
Proof.
  intros Hr Hname. eapply rtc_r; [exact Hr|]. unfold typed.
  apply step_change. by rewrite input_names_fields.
Qed.

Lemma submitted_reachable response st :
  @reachable plain_text (js "Welcome") st → @reachable plain_text (js "Welcome") (submitted response st).
Proof. intros Hr. eapply rtc_r; [exact Hr|]. apply step_submit. Qed.

Lemma initial_reachable : @reachable plain_text (js "Welcome") initial.
Proof. apply rtc_refl. Qed.

Lemma unreadable_throws : throws unreadable.
Proof.
  eexists _, _, _. split_and!; try reflexivity. constructor. by eexists.
Qed.

Lemma null_not_throws : ¬ throws JNull.
Proof. by intros (props & errors & len & [=] & _). Qed.

Lemma ada_form_valid : form_valid ada.
Proof.
  destruct ada_passes as (Hreach & Hpw & Hcpw). by split_and!.
Qed.

Lemma reachable_state_shape_witness :
  let st := submitted JNull (typed (js "firstName") (js "Ada") initial) in
  @reachable plain_text (js "Welcome") st
  ∧ dom (formData st) = list_to_set fields
  ∧ input_value st (js "firstName") = Some (js "Ada").
Proof.
  intros st.
  assert (Hr : @reachable plain_text (js "Welcome") st).
  { apply submitted_reachable, typed_reachable;
      [apply initial_reachable|by_computation]. }
  destruct (@reachable_state_shape plain_text (js "Welcome") st Hr)
    as (Hdom & _ & _ & _).
  split_and!; [exact Hr|exact Hdom|by vm_compute].
Defined.

Lemma submit_throws_iff_rejected_or_unreadable_witness :
  let st := typed (js "firstName") (js "Ada") initial in
  @reachable plain_text (js "Welcome") st
  ∧ Uncaught ∈ run rejects (@handleSubmit plain_text (js "Welcome") st)
  ∧ Uncaught
    ∈ run (answers unreadable) (@handleSubmit plain_text (js "Welcome") st)
  ∧ Uncaught ∉ run (answers JNull) (@handleSubmit plain_text (js "Welcome") st).
Proof.
  intros st.
  assert (Hr : @reachable plain_text (js "Welcome") st).
  { apply typed_reachable; [apply initial_reachable|by_computation]. }
  destruct (@submit_throws_iff_rejected_or_unreadable plain_text (js "Welcome")
              st rejects Hr) as [[_ Hrejected] _].
  destruct (@submit_throws_iff_rejected_or_unreadable plain_text (js "Welcome")
              st (answers unreadable) Hr) as [[_ Hthrown] _].
  destruct (@submit_throws_iff_rejected_or_unreadable plain_text (js "Welcome")
              st (answers JNull) Hr) as [[Hno _] _].
  split_and!; [exact Hr|exact (Hrejected (or_introl eq_refl))| |].
  - apply Hthrown. right. exists unreadable.
    split; [reflexivity|exact unreadable_throws].
  - intros Hin. destruct (Hno Hin) as [Hrej|(response & Hres & Hthrows)].
    + discriminate Hrej.
    + injection Hres as <-. exact (null_not_throws Hthrows).
Defined.

Lemma rejected_submit_changes_nothing_witness :
  let st := with_form ada initial in
  rejects (js "/api/users/register") (formData st) = Rejected
  ∧ after st (run rejects (@handleSubmit plain_text (js "Welcome") st)) = st.
Proof.
  intros st. split; [reflexivity|].
  by destruct (@rejected_submit_changes_nothing plain_text (js "Welcome") st
                 rejects eq_refl) as (_ & Hst & _).
Defined.

Lemma validation_ignores_response_witness :
  let st := with_form (form (js "Ada") (js "L0velace") [] [] [] []) initial in
  let taken := JObject [(js "errors", JArray [JString (js "Email taken")])] in
  has_fields (formData st)
  ∧ errorMessage
      (after st (run (answers taken) (@handleSubmit plain_text (js "Welcome") st)))
    = errorMessage
        (after st (run (answers JNull) (@handleSubmit plain_text (js "Welcome") st))).
Proof.
  intros st taken.
  assert (Hwf : has_fields (formData st)) by (unfold has_fields; by_computation).
  split; [exact Hwf|].
  by destruct (@validation_ignores_response plain_text (js "Welcome") st
                 (answers taken) (answers JNull) taken JNull Hwf eq_refl eq_refl
                 (ex_intro _ false eq_refl) (ex_intro _ false eq_refl))
    as [_ Hem].
Defined.

Lemma error_toasts_show_known_messages_witness :
  let st := submitted JNull initial in
  @reachable plain_text (js "Welcome") st
  ∧ (js "error", js "Must be at least 2 characters long") ∈ toasts st
  ∧ js "Must be at least 2 characters long" ∈ messages.
Proof.
  intros st.
  assert (Hr : @reachable plain_text (js "Welcome") st)
    by apply submitted_reachable, initial_reachable.
  assert (Hin : (js "error", js "Must be at least 2 characters long") ∈ toasts st)
    by by_computation.
  split_and!; [exact Hr|exact Hin|].
  exact (@error_toasts_show_known_messages plain_text (js "Welcome") st _ Hr Hin).
Defined.

Lemma success_toast_stays_witness :
  let st := submitted (JObject [(js "errors", JArray [])]) initial in
  let st' := submitted JNull (typed (js "firstName") (js "A") st) in
  @reachable plain_text (js "Welcome") (typed (js "firstName") (js "A") st)
  ∧ showSuccess (typed (js "firstName") (js "A") st) = true
  ∧ showSuccess st' = true.
Proof.
  intros st st'.
  assert (Hr : @reachable plain_text (js "Welcome") (typed (js "firstName") (js "A") st)).
  { apply typed_reachable; [|by_computation].
    apply submitted_reachable, initial_reachable. }
  assert (Hshow : showSuccess (typed (js "firstName") (js "A") st) = true)
    by reflexivity.
  destruct (@success_toast_stays plain_text (js "Welcome")
              (typed (js "firstName") (js "A") st) st' Hr
              (@step_submit plain_text (js "Welcome") _ (answers JNull)) Hshow)
    as [Hstays _].
  split_and!; [exact Hr|exact Hshow|exact Hstays].
Defined.

Lemma submit_keeps_what_was_typed_witness :
  let st := with_form ada initial in
  has_fields (formData st)
  ∧ input_value
      (after st (run (answers JNull) (@handleSubmit plain_text (js "Welcome") st)))
      (js "password")
    = Some (js "Secret123").
Proof.
  intros st.
  assert (Hwf : has_fields (formData st)) by (unfold has_fields; by_computation).
  split; [exact Hwf|].
  rewrite (@submit_keeps_what_was_typed plain_text (js "Welcome") st
             (answers JNull) (js "password") Hwf).
  reflexivity.
Defined.

Lemma submit_twice_is_submit_once_witness :
  has_fields (formData initial)
  ∧ submitted JNull (submitted JNull initial) = submitted JNull initial.
Proof.
  assert (Hwf : has_fields (formData initial))
    by (unfold has_fields; by_computation).
  split; [exact Hwf|].
  exact (@submit_twice_is_submit_once plain_text (js "Welcome") initial
           (answers JNull) Hwf).
Defined.

Lemma nothing_reported_iff_form_valid_witness :
  let st := with_form ada initial in
  has_fields (formData st)
  ∧ reported (run (answers JNull) (@handleSubmit plain_text (js "Welcome") st)) = [].
Proof.
  intros st.
  assert (Hwf : has_fields (formData st)) by (unfold has_fields; by_computation).
  split; [exact Hwf|].
  destruct (@nothing_reported_iff_form_valid plain_text (js "Welcome") st
              (answers JNull) JNull Hwf eq_refl (ex_intro _ false eq_refl))
    as [[_ Hrep] _].
  exact (Hrep ada_form_valid).
Defined.

Lemma typing_shows_value_keeps_toasts_witness :
  let st := submitted JNull initial in
  let st' := typed (js "email") (js "ada@example.org") st in
  js "email" ∈ fields
  ∧ input_value st' (js "email") = Some (js "ada@example.org")
  ∧ toasts st' = toasts st.
Proof.
  intros st st'.
  assert (Hname : js "email" ∈ fields) by by_computation.
  destruct (typing_shows_value_keeps_toasts st (answers JUndefined)
              (js "email") (js "ada@example.org") Hname) as (Hv & _ & Ht).
  split_and!; [exact Hname|exact Hv|exact Ht].
Defined.

Lemma server_success_with_invalid_form_witness :
  let response := JObject [(js "errors", JArray [])] in
  let st' := submitted response initial in
  has_fields (formData initial)
  ∧ @indicates_no_errors plain_text response
  ∧ ¬ form_valid (formData initial)
  ∧ (js "success", js "Welcome") ∈ toasts st'.
Proof.
  intros response st'.
  assert (Hwf : has_fields (formData initial))
    by (unfold has_fields; by_computation).
  assert (Hi : @indicates_no_errors plain_text response)
    by (by apply no_errors_spec).
  assert (Hinvalid : ¬ form_valid (formData initial)).
  { intros ([[[Hfirst _] _] _] & _). apply Hfirst. by_computation. }
  destruct (@server_success_with_invalid_form plain_text (js "Welcome") initial
              (answers response) response Hwf eq_refl Hi Hinvalid)
    as (_ & Hsuccess & _).
  split_and!; [exact Hwf|exact Hi|exact Hinvalid|exact Hsuccess].
Defined.

Lemma missing_field_behaviour_witness :
  let st := with_form ∅ initial in
  let events := run (answers JNull) (@handleSubmit plain_text (js "Welcome") st) in
  answers JNull (js "/api/users/register") (formData st) = Resolved JNull
  ∧ @evaluates plain_text JNull
  ∧ events = [PreventDefault; Put (js "/api/users/register") ∅; Uncaught].
Proof.
  intros st events.
  assert (Hev : @evaluates plain_text JNull) by exact (ex_intro _ false eq_refl).
  split_and!; [reflexivity|exact Hev|].
  destruct (@missing_field_behaviour plain_text (js "Welcome") st
              (answers JNull) JNull eq_refl Hev)
    as (notify & Hnotify & Hmissing & _).
  destruct (Hmissing eq_refl) as (Hevents & _).
  destruct Hnotify as [[Hi _]|[_ ->]]; [|exact Hevents].
  apply (@no_errors_spec plain_text) in Hi. discriminate Hi.
Defined.

Lemma accepted_email_facts_witness :
  test re_email (js "ada@example.org") = true
  ∧ length (filter (fun c => c = chr "@") (js "ada@example.org")) = 1.
Proof.
  split; [reflexivity|].
  by destruct (accepted_email_facts (js "ada@example.org") eq_refl) as [Hone _].
Defined.

Lemma accepted_form_lengths_witness :
  let st := with_form ada initial in
  has_fields (formData st)
  ∧ reported (run (answers JNull) (@handleSubmit plain_text (js "Welcome") st)) = []
  ∧ 11 ≤ length (field (formData st) "phoneNumber") ≤ 13.
Proof.
  intros st.
  assert (Hwf : has_fields (formData st)) by (unfold has_fields; by_computation).
  assert (Hrep : reported (run (answers JNull)
                   (@handleSubmit plain_text (js "Welcome") st)) = [])
    by (by vm_compute).
  destruct (@accepted_form_lengths plain_text (js "Welcome") st (answers JNull)
              JNull Hwf eq_refl (ex_intro _ false eq_refl) Hrep)
    as (_ & _ & _ & Hphone & _).
  split_and!; [exact Hwf|exact Hrep|exact (proj1 Hphone)|exact (proj2 Hphone)].
Defined.
